(** * imagescale-q-m: a batch of image rescaling jobs over process queues

    A shallow embedding of [chapter4/imagescale-q-m.py].

    - Python exceptions are values of [exn]; a computation that may raise
      returns [res A].
    - Python floats are IEEE 754 binary64 numbers.  The only float
      operations of the program are [int / int], [min], [max] and
      [math.ceil]; [int / int] is the correctly rounded quotient
      (round to nearest, ties to even), see [Float.round].  A float is
      kept as mantissa and exponent and compared by its rational value.
    - The modules [Image], [Qtrac], [os] and [multiprocessing] are not part
      of the program.  The image library and the file system are an
      interface ([ImageLibrary]) whose calls may raise any exception; the
      queues follow the documented behaviour of
      [multiprocessing.JoinableQueue] and [multiprocessing.Queue]; paths
      are POSIX paths.
    - The coordinator ([scale]) and the worker processes run interleaved:
      [step] executes one atomic action of one process, [run] a whole
      schedule.  The actions of a worker are [jobs.get()], the inner
      [try] (with [scale_one], the report and [results.put]) and the
      [finally]; those of the coordinator are the listing of the
      directory, each iteration of the two loops, and [jobs.join()].  A
      KeyboardInterrupt is an action on the coordinator.  The feeder
      thread that [results.put] leaves a Result with acts on its own:
      the Result is in the queue only once that thread has written
      it.
    - Every queue operation appends an [event] to the history of the
      state; the properties of the batch are stated over that history. *)

From Stdlib Require Import ZArith QArith Qpower Qround Qabs Lia Lqa.
From Stdlib Require Import List String Ascii Bool Permutation.
From Stdlib Require Import DecimalString SpecFloat.
Import ListNotations.
Open Scope Z_scope.

(** ** Exceptions *)

Inductive exn : Type :=
| Image_Error (msg : string)   (* Image.Error and its subclasses *)
| Exception (cls : string).     (* any other exception, by class name *)

Definition ZeroDivisionError : exn := Exception "ZeroDivisionError".
Definition OverflowError : exn := Exception "OverflowError".
Definition UnboundLocalError : exn := Exception "UnboundLocalError".
Definition KeyboardInterrupt : exn := Exception "KeyboardInterrupt".
Definition ValueError : exn := Exception "ValueError".
Definition AttributeError : exn := Exception "AttributeError".

Inductive res (A : Type) : Type :=
| Ok (a : A)
| Raise (e : exn).
Arguments Ok {A} a.
Arguments Raise {A} e.

Definition bind {A B : Type} (m : res A) (k : A -> res B) : res B :=
  match m with
  | Ok a => k a
  | Raise e => Raise e
  end.

Notation "x <- m ;; k" := (bind m (fun x => k))
  (at level 61, m at next level, right associativity).

(** ** Floats *)

Module Float.

Definition prec : Z := 53.
Definition emin : Z := -1074.
Definition emax : Z := 1024.

(** [Float m e] is the number [m * 2^e]. *)
Record float : Type := Float { Fnum : Z; Fexp : Z }.

Definition pow2 (e : Z) : Q := Qpower 2 e.

Definition F2Q (f : float) : Q := inject_Z (Fnum f) * pow2 (Fexp f).

(** The binade of a non-zero rational: [2^(mag q - 1) <= |q| < 2^(mag q)]. *)
Definition mag (q : Q) : Z :=
  let a := Qabs q in
  let e0 := Z.log2 (Qnum a) - Z.log2 (Zpos (Qden a)) in
  if Qle_bool (pow2 e0) a then e0 + 1 else e0.

(** Exponent of the last bit kept: 53 significant bits, and never below
    the subnormal quantum [2^-1074]. *)
Definition cexp (q : Q) : Z := Z.max (mag q - prec) emin.

(** Nearest integer, ties to even. *)
Definition rnd_even (x : Q) : Z :=
  let f := Qfloor x in
  match (x - inject_Z f ?= 1 # 2)%Q with
  | Lt => f
  | Gt => f + 1
  | Eq => if Z.even f then f else f + 1
  end.

Definition round (q : Q) : float :=
  Float (rnd_even (q * pow2 (- cexp q))) (cexp q).

(** [a / b] on Python ints. *)
Definition truediv (a b : Z) : res float :=
  if b =? 0 then Raise ZeroDivisionError
  else
    let f := round (inject_Z a / inject_Z b) in
    if Qle_bool (pow2 emax) (Qabs (F2Q f)) then Raise OverflowError
    else Ok f.

Definition ltb (a b : float) : bool :=
  match (F2Q a ?= F2Q b)%Q with
  | Lt => true
  | _ => false
  end.

(** [min(a, b)] and [max(a, b)]: the first argument is kept unless the
    second is strictly better. *)
Definition min (a b : float) : float := if ltb b a then b else a.
Definition max (a b : float) : float := if ltb a b then b else a.

(** [int(math.ceil(x))] *)
Definition ceil (x : float) : Z := Qceiling (F2Q x).

End Float.

(** ** os.path (POSIX) *)

Definition is_sep (c : ascii) : bool := Ascii.eqb c "/".

Definition startswith_sep (s : string) : bool :=
  match s with
  | String c _ => is_sep c
  | EmptyString => false
  end.

Fixpoint endswith_sep (s : string) : bool :=
  match s with
  | EmptyString => false
  | String c EmptyString => is_sep c
  | String _ r => endswith_sep r
  end.

(** [os.path.join(a, b)] *)
Definition join (a b : string) : string :=
  if startswith_sep b then b
  else if (String.eqb a "" || endswith_sep a)%bool then a ++ b
  else a ++ "/" ++ b.

Fixpoint basename_from (acc p : string) : string :=
  match p with
  | EmptyString => acc
  | String c r =>
      if is_sep c then basename_from "" r
      else basename_from (acc ++ String c "") r
  end.

(** [os.path.basename(p)]: what follows the last separator. *)
Definition basename (p : string) : string := basename_from "" p.

(** [enumerate(l, start)] *)
Fixpoint enumerate {A : Type} (l : list A) (start : Z) : list (Z * A) :=
  match l with
  | [] => []
  | x :: r => (start, x) :: enumerate r (start + 1)
  end.

(** [str(n)] for an int, as [format] prints it. *)
Definition str_int (n : Z) : string := NilZero.string_of_int (Z.to_int n).

(** ** Data *)

Record Result : Type := mkResult { copied : Z; scaled : Z; name : string }.

(** The fields [copied] and [scaled] of a Summary are [sum_copied] and
    [sum_scaled] here. *)
Record Summary : Type :=
  mkSummary { todo : Z; sum_copied : Z; sum_scaled : Z; canceled : bool }.

(** A job is the pair [(sourceImage, targetImage)]. *)
Definition Job : Type := (string * string)%type.

(** ** The image library and the file system *)

Class ImageLibrary : Type := {
  world : Type;                     (* the file system *)
  Image : Type;
  os_listdir : string -> world -> res (list string);
  os_abspath : string -> string;
  os_exists : string -> world -> bool;
  os_makedirs : string -> world -> res unit * world;
  Image_from_file : string -> world -> res Image;
  width : Image -> Z;
  height : Image -> Z;
  Image_scale : Image -> Float.float -> res Image;
  Image_subsample : Image -> Z -> res Image;
  Image_save : Image -> string -> world -> res unit * world
}.

(** ** multiprocessing.JoinableQueue *)

(** The job queue has one producer, the coordinator, and [put] raises
    the counter of unfinished tasks itself.  That its feeder thread
    writes a job some time after [put] only makes a worker get the job
    later, which every schedule below allows anyway; so [put] adds the
    job to [items] at once. *)
Record JoinableQueue : Type :=
  mkQueue { items : list Job; unfinished : nat }.

Definition empty_queue : JoinableQueue := mkQueue [] 0.

Definition put (j : Job) (q : JoinableQueue) : JoinableQueue :=
  mkQueue (items q ++ [j]) (S (unfinished q)).

(** [get()] blocks on an empty queue: [None]. *)
Definition get (q : JoinableQueue) : option (Job * JoinableQueue) :=
  match items q with
  | [] => None
  | j :: rest => Some (j, mkQueue rest (unfinished q))
  end.

(** [task_done()] raises ValueError when called more often than there
    were items. *)
Definition task_done (q : JoinableQueue) : res JoinableQueue :=
  match unfinished q with
  | O => Raise ValueError
  | S n => Ok (mkQueue (items q) n)
  end.

(** [join()] returns once the counter is zero. *)
Definition join_ready (q : JoinableQueue) : bool := Nat.eqb (unfinished q) 0.

(** ** The program *)

Section Program.

Context {lib : ImageLibrary}.

(** Computations on the file system that may raise. *)
Definition IO (A : Type) : Type := world -> res A * world.

Definition io_ret {A : Type} (a : A) : IO A := fun fs => (Ok a, fs).

Definition io_bind {A B : Type} (m : IO A) (k : A -> IO B) : IO B :=
  fun fs =>
    match m fs with
    | (Ok a, fs') => k a fs'
    | (Raise e, fs') => (Raise e, fs')
    end.

(** A call that only reads the file system, or none at all. *)
Definition io_pure {A : Type} (m : world -> res A) : IO A :=
  fun fs => (m fs, fs).

Notation "x <-- m ;; k" := (io_bind m (fun x => k))
  (at level 61, m at next level, right associativity).

(** [min(size / oldImage.width, size / oldImage.height)] *)
Definition scale_factor (size w h : Z) : res Float.float :=
  a <- Float.truediv size w ;;
  b <- Float.truediv size h ;;
  Ok (Float.min a b).

(** [int(math.ceil(max(oldImage.width / size, oldImage.height / size)))] *)
Definition subsample_stride (size w h : Z) : res Z :=
  a <- Float.truediv w size ;;
  b <- Float.truediv h size ;;
  Ok (Float.ceil (Float.max a b)).

Definition scale_one (size : Z) (smooth : bool)
    (sourceImage targetImage : string) : IO Result :=
  oldImage <-- io_pure (Image_from_file sourceImage) ;;
  if ((width oldImage <=? size) && (height oldImage <=? size))%bool then
    _ <-- Image_save oldImage targetImage ;;
    io_ret (mkResult 1 0 targetImage)
  else
    newImage <--
      (if smooth then
         io_pure (fun _ =>
           scale <- scale_factor size (width oldImage) (height oldImage) ;;
           Image_scale oldImage scale)
       else
         io_pure (fun _ =>
           stride <- subsample_stride size (width oldImage) (height oldImage) ;;
           Image_subsample oldImage stride)) ;;
    _ <-- Image_save newImage targetImage ;;
    io_ret (mkResult 0 1 targetImage).

(** *** add_jobs, run on its own *)

Definition make_job (source target name : string) : Job :=
  (join source name, join target name).

(** The [for] loop of [add_jobs] over the rest of the enumeration, and
    its [return todo]; [todo] is [None] until the loop binds it. *)
Fixpoint add_jobs_loop (source target : string) (it : list (Z * string))
    (todo : option Z) (jobs : JoinableQueue) : res Z * JoinableQueue :=
  match it with
  | [] =>
      (match todo with
       | Some n => Ok n
       | None => Raise UnboundLocalError
       end, jobs)
  | (n, name) :: rest =>
      add_jobs_loop source target rest (Some n)
        (put (make_job source target name) jobs)
  end.

Definition add_jobs (source target : string) (jobs : JoinableQueue)
    (fs : world) : res Z * JoinableQueue :=
  match os_listdir source fs with
  | Raise e => (Raise e, jobs)
  | Ok names => add_jobs_loop source target (enumerate names 1) None jobs
  end.

(** *** The processes *)

Record Config : Type := mkConfig {
  size : Z;
  smooth : bool;
  source : string;
  target : string;
  concurrency : Z
}.

(** Where a worker process is in [worker]. *)
Inductive worker_pc : Type :=
| WGet                                  (* at [jobs.get()] *)
| WRun (job : Job)                      (* entering the inner [try] *)
| WFinally (job : Job) (pending : option exn)
                                        (* at [jobs.task_done()] *)
| WExit (e : exn).                      (* ended by an exception *)

(** Where the coordinator is in [scale]. *)
Inductive scale_pc : Type :=
| SStart                                (* calling [add_jobs] *)
| SAddJobs (it : list (Z * string)) (todo : option Z)
                                        (* in the loop of [add_jobs] *)
| SJoin (todo : Z)                      (* at [jobs.join()] *)
| SDrain (todo : Z) (canceled : bool) (copied scaled : Z)
                                        (* in the [while] loop *)
| SReturn (summary : Summary)
| SRaise (e : exn).

Inductive event : Type :=
| EvPut (job : Job)                            (* jobs.put *)
| EvGet (w : nat) (job : Job)                  (* jobs.get by worker w *)
| EvResult (w : nat) (job : Job) (r : Result)  (* results.put *)
| EvError (w : nat) (job : Job) (e : exn)      (* scale_one raised *)
| EvTaskDone (w : nat) (job : Job)             (* jobs.task_done *)
| EvFeed (w : nat) (r : Result)                (* a feeder writes r *)
| EvDrain (r : Result)                         (* results.get_nowait *)
| EvCancel.                                    (* KeyboardInterrupt in join *)

(** The Result queue is a [multiprocessing.Queue].  Its [put] only
    hands the object to the feeder thread of the process that puts;
    that thread writes the objects of its process to the pipe of the
    queue, oldest first, when it gets to run.  [empty()] and
    [get_nowait()] see the pipe only.  [results] is the pipe; [feeding]
    holds the Results that were put and are not yet written, each with
    the worker that put it. *)
Record State : Type := mkState {
  jobs : JoinableQueue;
  results : list Result;                 (* the pipe of the Queue *)
  reported : list (string * bool);       (* Qtrac.report(message, error) *)
  fs : world;
  coordinator : scale_pc;
  procs : list worker_pc;
  history : list event;
  feeding : list (nat * Result)          (* put, not yet in the pipe *)
}.

(** [create_processes]: one worker per element of [range(concurrency)]. *)
Definition create_processes (concurrency : Z) : list worker_pc :=
  repeat WGet (Z.to_nat concurrency).

(** The state in which [scale] calls [add_jobs]. *)
Definition initial (cfg : Config) (log : list (string * bool)) (w : world)
    : State :=
  mkState empty_queue [] log w SStart
    (create_processes (concurrency cfg)) [] [].

Fixpoint update {A : Type} (i : nat) (x : A) (l : list A) : list A :=
  match l, i with
  | [], _ => []
  | _ :: r, O => x :: r
  | y :: r, S i' => y :: update i' x r
  end.

(** ["{} {}".format("copied" if result.copied else "scaled",
    os.path.basename(result.name))] *)
Definition progress_line (result : Result) : string :=
  ((if Z.eqb (copied result) 0 then "scaled" else "copied") ++ " " ++
     basename (name result))%string.

(** The inner [try] of [worker]: [scale_one], then the progress line and
    [results.put] of the Result, which goes to the feeder thread of the
    worker, or the error line for an [Image.Error]. *)
Definition worker_try (cfg : Config) (w : nat) (job : Job) (s : State)
    : State :=
  match scale_one (size cfg) (smooth cfg) (fst job) (snd job) (fs s) with
  | (Ok result, fs') =>
      mkState (jobs s) (results s)
        (reported s ++ [(progress_line result, false)])
        fs' (coordinator s)
        (update w (WFinally job None) (procs s))
        (history s ++ [EvResult w job result])
        (feeding s ++ [(w, result)])
  | (Raise (Image_Error msg), fs') =>
      mkState (jobs s) (results s) (reported s ++ [(msg, true)])
        fs' (coordinator s)
        (update w (WFinally job None) (procs s))
        (history s ++ [EvError w job (Image_Error msg)])
        (feeding s)
  | (Raise e, fs') =>
      mkState (jobs s) (results s) (reported s)
        fs' (coordinator s)
        (update w (WFinally job (Some e)) (procs s))
        (history s ++ [EvError w job e])
        (feeding s)
  end.

(** The [finally] of [worker]: [task_done], then the pending exception
    ends the process or the loop goes on. *)
Definition worker_finally (w : nat) (job : Job) (pending : option exn)
    (s : State) : State :=
  match task_done (jobs s) with
  | Raise e =>
      mkState (jobs s) (results s) (reported s) (fs s) (coordinator s)
        (update w (WExit e) (procs s)) (history s) (feeding s)
  | Ok q =>
      mkState q (results s) (reported s) (fs s) (coordinator s)
        (update w (match pending with
                   | Some e => WExit e
                   | None => WGet
                   end) (procs s))
        (history s ++ [EvTaskDone w job])
        (feeding s)
  end.

Definition worker_step (cfg : Config) (w : nat) (s : State) : option State :=
  match nth_error (procs s) w with
  | Some WGet =>
      match get (jobs s) with
      | None => None
      | Some (job, q) =>
          Some (mkState q (results s) (reported s) (fs s) (coordinator s)
                  (update w (WRun job) (procs s))
                  (history s ++ [EvGet w job]) (feeding s))
      end
  | Some (WRun job) => Some (worker_try cfg w job s)
  | Some (WFinally job pending) => Some (worker_finally w job pending s)
  | Some (WExit _) => None
  | None => None
  end.

Definition set_coordinator (pc : scale_pc) (s : State) : State :=
  mkState (jobs s) (results s) (reported s) (fs s) pc (procs s) (history s)
    (feeding s).

(** [scale] with [add_jobs], one action at a time.  [results.empty()]
    and [results.get_nowait()] look at the pipe of the Result queue: a
    Result that is still with a feeder thread is not seen. *)
Definition scale_step (cfg : Config) (s : State) : option State :=
  match coordinator s with
  | SStart =>
      match os_listdir (source cfg) (fs s) with
      | Raise e => Some (set_coordinator (SRaise e) s)
      | Ok names => Some (set_coordinator (SAddJobs (enumerate names 1) None) s)
      end
  | SAddJobs [] None => Some (set_coordinator (SRaise UnboundLocalError) s)
  | SAddJobs [] (Some n) => Some (set_coordinator (SJoin n) s)
  | SAddJobs ((n, name) :: rest) _ =>
      let job := make_job (source cfg) (target cfg) name in
      Some (mkState (put job (jobs s)) (results s) (reported s) (fs s)
              (SAddJobs rest (Some n)) (procs s)
              (history s ++ [EvPut job]) (feeding s))
  | SJoin n =>
      if join_ready (jobs s)
      then Some (set_coordinator (SDrain n false 0 0) s)
      else None
  | SDrain n c cp sc =>
      match results s with
      | [] => Some (set_coordinator (SReturn (mkSummary n cp sc c)) s)
      | result :: rest =>
          Some (mkState (jobs s) rest (reported s) (fs s)
                  (SDrain n c (cp + copied result) (sc + scaled result))
                  (procs s) (history s ++ [EvDrain result]) (feeding s))
      end
  | SReturn _ => None
  | SRaise _ => None
  end.

(** A KeyboardInterrupt in the coordinator: caught around [jobs.join()],
    fatal anywhere else in [scale]. *)
Definition interrupt_step (s : State) : option State :=
  match coordinator s with
  | SJoin n =>
      Some (mkState (jobs s) (results s)
              (reported s ++ [("canceling..."%string, false)]) (fs s)
              (SDrain n true 0 0) (procs s) (history s ++ [EvCancel])
              (feeding s))
  | SStart | SAddJobs _ _ | SDrain _ _ _ _ =>
      Some (set_coordinator (SRaise KeyboardInterrupt) s)
  | SReturn _ | SRaise _ => None
  end.

(** The oldest Result that worker [w] has put and that is not yet in
    the pipe, and what stays behind. *)
Fixpoint take_first (w : nat) (l : list (nat * Result))
    : option (Result * list (nat * Result)) :=
  match l with
  | [] => None
  | (v, r) :: rest =>
      if Nat.eqb v w then Some (r, rest)
      else
        match take_first w rest with
        | Some (r', rest') => Some (r', (v, r) :: rest')
        | None => None
        end
  end.

(** The feeder thread of worker [w] writes its oldest Result to the
    pipe.  It does so whatever the worker is doing, also after an
    exception has ended the worker: a process flushes its queues when it
    exits. *)
Definition feeder_step (w : nat) (s : State) : option State :=
  match take_first w (feeding s) with
  | None => None
  | Some (r, rest) =>
      Some (mkState (jobs s) (results s ++ [r]) (reported s) (fs s)
              (coordinator s) (procs s) (history s ++ [EvFeed w r]) rest)
  end.

Inductive action : Type :=
| Coordinator
| Worker (w : nat)
| Interrupt
| Feeder (w : nat).

(** One atomic action; [None] when the process is blocked or has ended,
    or the feeder has nothing to write. *)
Definition step (cfg : Config) (a : action) (s : State) : option State :=
  match a with
  | Coordinator => scale_step cfg s
  | Worker w => worker_step cfg w s
  | Interrupt => interrupt_step s
  | Feeder w => feeder_step w s
  end.

Fixpoint run (cfg : Config) (sched : list action) (s : State)
    : option State :=
  match sched with
  | [] => Some s
  | a :: rest =>
      match step cfg a s with
      | Some s' => run cfg rest s'
      | None => None
      end
  end.

(** *** summarize *)

Definition difference (summary : Summary) : Z :=
  todo summary - (sum_copied summary + sum_scaled summary).

Definition summarize (summary : Summary) (concurrency : Z) : string :=
  (("copied " ++ str_int (sum_copied summary) ++ " scaled " ++
      str_int (sum_scaled summary) ++ " ") ++
   (if Z.eqb (difference summary) 0 then ""
    else "skipped " ++ str_int (difference summary) ++ " ") ++
   ("using " ++ str_int concurrency ++ " processes") ++
   (if canceled summary then " [canceled]" else ""))%string.

(** *** handle_commandline *)

(** What [parser.parse_args()] returns. *)
Record Namespace : Type := mkNamespace {
  args_concurrency : Z;
  args_size : Z;
  args_smooth : bool;
  args_source : string;
  args_target : string
}.

(** [args] has no attribute [error]: the call on line 53 raises
    AttributeError. *)
Definition handle_commandline (args : Namespace) : IO Config :=
  let source := os_abspath (args_source args) in
  let target := os_abspath (args_target args) in
  if String.eqb source target then io_pure (fun _ => Raise AttributeError)
  else
    _ <-- (fun fs =>
             if os_exists (args_target args) fs then (Ok tt, fs)
             else os_makedirs target fs) ;;
    io_ret (mkConfig (args_size args) (args_smooth args) source target
              (args_concurrency args)).

(** [main] up to the call of [scale]: the state in which the batch
    starts, or the exception that ends the program before. *)
Definition main_start (args : Namespace) (fs : world) : res (Config * State) :=
  match handle_commandline args fs with
  | (Raise e, _) => Raise e
  | (Ok cfg, fs') => Ok (cfg, initial cfg [("starting..."%string, false)] fs')
  end.

(** *** What the history of a state records *)

Definition puts (h : list event) : list Job :=
  flat_map (fun e => match e with EvPut j => [j] | _ => [] end) h.

Definition gets (h : list event) : list (nat * Job) :=
  flat_map (fun e => match e with EvGet w j => [(w, j)] | _ => [] end) h.

(** The jobs whose inner [try] has ended, with or without a Result. *)
Definition handled (h : list event) : list (nat * Job) :=
  flat_map (fun e => match e with
                     | EvResult w j _ | EvError w j _ => [(w, j)]
                     | _ => []
                     end) h.

(** The Results that the workers have put, and the jobs whose
    [scale_one] raised. *)
Definition produced (h : list event) : list Result :=
  flat_map (fun e => match e with EvResult _ _ r => [r] | _ => [] end) h.

Definition failed (h : list event) : list (nat * Job) :=
  flat_map (fun e => match e with EvError w j _ => [(w, j)] | _ => [] end) h.

Definition acks (h : list event) : list (nat * Job) :=
  flat_map (fun e => match e with EvTaskDone w j => [(w, j)] | _ => [] end) h.

(** The Results that have reached the pipe. *)
Definition arrived (h : list event) : list Result :=
  flat_map (fun e => match e with EvFeed _ r => [r] | _ => [] end) h.

Definition drained (h : list event) : list Result :=
  flat_map (fun e => match e with EvDrain r => [r] | _ => [] end) h.

(** The Results that worker [w] has put, those of its Results that have
    reached the pipe, and those that its feeder thread still holds. *)
Definition one_if (u w : nat) (r : Result) : list Result :=
  if Nat.eqb u w then [r] else [].

Definition produced_by (w : nat) (h : list event) : list Result :=
  flat_map (fun e => match e with
                     | EvResult u _ r => one_if u w r
                     | _ => []
                     end) h.

Definition arrived_from (w : nat) (h : list event) : list Result :=
  flat_map (fun e => match e with
                     | EvFeed u r => one_if u w r
                     | _ => []
                     end) h.

Definition buffered (w : nat) (l : list (nat * Result)) : list Result :=
  flat_map (fun x => one_if (fst x) w (snd x)) l.

Definition fifo_inv (s : State) : Prop :=
  forall w,
    produced_by w (history s)
    = arrived_from w (history s) ++ buffered w (feeding s).

(** The job a worker has taken and not yet acknowledged. *)
Definition held (p : worker_pc) : list Job :=
  match p with
  | WRun j | WFinally j _ => [j]
  | WGet | WExit _ => []
  end.

(** The job a worker has taken and not yet passed to [scale_one]. *)
Definition entering (p : worker_pc) : list Job :=
  match p with
  | WRun j => [j]
  | _ => []
  end.

Fixpoint collect (f : worker_pc -> list Job) (k : nat)
    (ps : list worker_pc) : list (nat * Job) :=
  match ps with
  | [] => []
  | p :: r => map (pair k) (f p) ++ collect f (S k) r
  end.

Definition holding (ps : list worker_pc) : list (nat * Job) :=
  collect held 0 ps.

Definition running (ps : list worker_pc) : list (nat * Job) :=
  collect entering 0 ps.

Definition total (f : Result -> Z) (rs : list Result) : Z :=
  fold_right (fun r acc => f r + acc) 0 rs.

(** A Result as [scale_one] builds it: [Result(1, 0, _)] or
    [Result(0, 1, _)]. *)
Definition one_of_copied_scaled (r : Result) : Prop :=
  (copied r = 1 /\ scaled r = 0) \/ (copied r = 0 /\ scaled r = 1).

Definition enqueued (s : State) : Z := Z.of_nat (List.length (puts (history s))).

(** What holds of the coordinator at each point of [scale]. *)
Definition coordinator_inv (s : State) : Prop :=
  match coordinator s with
  | SStart => puts (history s) = [] /\ drained (history s) = []
  | SAddJobs it t =>
      it = enumerate (map snd it) (enqueued s + 1) /\
      t = (if enqueued s =? 0 then None else Some (enqueued s)) /\
      drained (history s) = []
  | SJoin n => n = enqueued s /\ 0 < n /\ drained (history s) = []
  | SDrain n c cp sc =>
      n = enqueued s /\ 0 < n /\
      cp = total copied (drained (history s)) /\
      sc = total scaled (drained (history s)) /\
      (c = false -> unfinished (jobs s) = O)
  | SReturn summary =>
      todo summary = enqueued s /\ 0 < todo summary /\
      sum_copied summary = total copied (drained (history s)) /\
      sum_scaled summary = total scaled (drained (history s)) /\
      (canceled summary = false -> unfinished (jobs s) = O)
  | SRaise _ => True
  end.

(** The invariant of the batch. *)
Record Inv (s : State) : Prop := mkInv {
  inv_fifo :
    puts (history s) = map snd (gets (history s)) ++ items (jobs s);
  inv_acks :
    Permutation (gets (history s)) (acks (history s) ++ holding (procs s));
  inv_counter :
    unfinished (jobs s)
    = (List.length (items (jobs s)) + List.length (holding (procs s)))%nat;
  inv_handled :
    Permutation (gets (history s))
      (handled (history s) ++ running (procs s));
  inv_outcomes :
    List.length (handled (history s))
    = (List.length (produced (history s)) + List.length (failed (history s)))%nat;
  inv_results : arrived (history s) = drained (history s) ++ results s;
  inv_produced : Forall one_of_copied_scaled (produced (history s));
  inv_coordinator : coordinator_inv s;
  inv_feeding :
    Permutation (produced (history s))
      (arrived (history s) ++ map snd (feeding s))
}.

(** The actions a worker still has to take for the job it holds, and
    the actions all workers have to take for the jobs queued or held:
    three for each job in the queue ([get], the inner [try], the
    [finally]). *)
Definition weight (p : worker_pc) : nat :=
  match p with
  | WRun _ => 2
  | WFinally _ _ => 1
  | WGet | WExit _ => 0
  end.

Definition work_left (s : State) : nat :=
  3 * List.length (items (jobs s)) + list_sum (map weight (procs s)).

(** [jobs.join()] has returned, without an interrupt. *)
Definition join_returned (s : State) : Prop :=
  match coordinator s with
  | SDrain _ false _ _ => True
  | SReturn summary => canceled summary = false
  | _ => False
  end.


(** The batch on an empty source directory: nothing is ever put, and
    the coordinator is still in [add_jobs] or has raised. *)
Definition empty_inv (w : world) (s : State) : Prop :=
  fs s = w /\ items (jobs s) = [] /\ puts (history s) = [] /\
  Forall (fun p => p = WGet) (procs s) /\
  match coordinator s with
  | SStart | SAddJobs [] None | SRaise _ => True
  | _ => False
  end.

(** The line that is reported with an event: a progress line with each
    Result, the message of an [Image.Error], "canceling..." with the
    interrupt that is caught; nothing with any other event. *)
Definition report_of (e : event) : list (string * bool) :=
  match e with
  | EvResult _ _ r => [(progress_line r, false)]
  | EvError _ _ (Image_Error msg) => [(msg, true)]
  | EvCancel => [("canceling..."%string, false)]
  | _ => []
  end.

Definition reports (h : list event) : list (string * bool) :=
  flat_map report_of h.

(** A name with a path separator in it. *)
Fixpoint has_sep (s : string) : bool :=
  match s with
  | EmptyString => false
  | String c r => (is_sep c || has_sep r)%bool
  end.

(** The coordinator has ended [add_jobs] without an exception. *)
Definition jobs_added (s : State) : Prop :=
  match coordinator s with
  | SJoin _ | SDrain _ _ _ _ | SReturn _ => True
  | SStart | SAddJobs _ _ | SRaise _ => False
  end.

(** The jobs put follow the listing [names] that [add_jobs] took of the
    source directory of the file system [w]. *)
Definition listing_inv (cfg : Config) (w : world) (names : list string)
    (s : State) : Prop :=
  let all := map (make_job (source cfg) (target cfg)) names in
  (exists rest, all = puts (history s) ++ rest) /\
  match coordinator s with
  | SStart =>
      fs s = w /\ items (jobs s) = [] /\
      Forall (fun p => p = WGet) (procs s)
  | SAddJobs it _ =>
      all = puts (history s)
            ++ map (make_job (source cfg) (target cfg)) (map snd it)
  | SJoin _ | SDrain _ _ _ _ | SReturn _ => all = puts (history s)
  | SRaise _ => True
  end.

(** Every worker process has been ended by an exception. *)
Definition all_exited (ps : list worker_pc) : Prop :=
  Forall (fun p => exists e, p = WExit e) ps.

(** The coordinator is in [scale] outside the [try] around
    [jobs.join()]. *)
Definition outside_join (s : State) : Prop :=
  match coordinator s with
  | SStart | SAddJobs _ _ | SDrain _ _ _ _ => True
  | SJoin _ | SReturn _ | SRaise _ => False
  end.

End Program.

(** ** A small image library, to run the program on *)

Module Demo.

Inductive file : Type :=
| Picture (w h : Z)   (* an image of that size *)
| Garbage.            (* not an image *)

(** The files of the disk, by path; the first entry of a path wins. *)
Definition disk : Type := list (string * file).

Fixpoint lookup (path : string) (d : disk) : option file :=
  match d with
  | [] => None
  | (p, f) :: r => if String.eqb p path then Some f else lookup path r
  end.

(** The entry of [path] in directory [dir], if it is directly in it. *)
Definition entry_of (dir path : string) : list string :=
  let pre := (dir ++ "/")%string in
  if String.prefix pre path
  then [substring (String.length pre)
          (String.length path - String.length pre) path]
  else [].

Definition listdir (dir : string) (d : disk) : res (list string) :=
  Ok (flat_map (fun pf => entry_of dir (fst pf)) d).

Definition from_file (path : string) (d : disk) : res (Z * Z) :=
  match lookup path d with
  | Some (Picture w h) => Ok (w, h)
  | Some Garbage => Raise (Image_Error ("cannot load " ++ path))
  | None => Raise (Exception "FileNotFoundError")
  end.

Definition scale (img : Z * Z) (ratio : Float.float) : res (Z * Z) :=
  Ok (Qceiling (Float.F2Q ratio * inject_Z (fst img)),
      Qceiling (Float.F2Q ratio * inject_Z (snd img))).

Definition subsample (img : Z * Z) (stride : Z) : res (Z * Z) :=
  if stride <=? 0 then Raise ValueError
  else Ok ((fst img + stride - 1) / stride, (snd img + stride - 1) / stride).

Definition save (img : Z * Z) (path : string) (d : disk)
    : res unit * disk :=
  (Ok tt, (path, Picture (fst img) (snd img)) :: d).

#[export] Instance library : ImageLibrary := {
  world := disk;
  Image := (Z * Z)%type;
  os_listdir := listdir;
  os_abspath := fun p => p;
  os_exists := fun p d => existsb (fun pf => String.prefix p (fst pf)) d;
  os_makedirs := fun p d => (Ok tt, d);
  Image_from_file := from_file;
  width := fst;
  height := snd;
  Image_scale := scale;
  Image_subsample := subsample;
  Image_save := save
}.

Definition photos : disk :=
  [("/in/a.xpm", Picture 800 400);
   ("/in/b.xpm", Picture 300 200);
   ("/in/c.xpm", Garbage)]%string.

Definition cfg : Config := mkConfig 400 false "/in" "/out" 2.

(** A complete run: both workers take jobs while the coordinator is
    still adding them, and each Result is written to the queue soon
    after it was put. *)
Definition schedule : list action :=
  [Coordinator; Coordinator; Worker 0; Coordinator; Worker 1; Worker 0;
   Feeder 0; Coordinator; Coordinator; Worker 1; Worker 0; Feeder 1;
   Worker 1; Worker 0; Worker 0; Worker 0;
   Coordinator; Coordinator; Coordinator; Coordinator].

(** The same batch interrupted while two jobs are still being handled. *)
Definition interrupted : list action :=
  [Coordinator; Coordinator; Coordinator; Coordinator; Coordinator;
   Worker 0; Worker 1; Worker 0; Feeder 0; Interrupt;
   Coordinator; Coordinator].

(** Up to the point where worker 0 enters the inner [try] with the
    file that is not an image. *)
Definition before_error : list action :=
  [Coordinator; Coordinator; Coordinator; Coordinator;
   Worker 0; Worker 1; Worker 0; Worker 0; Worker 0].

(** Up to [jobs.join()], with one Result already in the queue. *)
Definition before_interrupt : list action :=
  [Coordinator; Coordinator; Coordinator; Coordinator; Coordinator;
   Worker 0; Worker 1; Worker 0; Feeder 0].

(** Command lines: one with no worker, one with the same directory
    twice. *)
Definition no_workers : Namespace := mkNamespace 0 400 false "/in" "/out".
Definition same_directory : Namespace := mkNamespace 2 400 false "/in" "/in".

Definition cfg0 : Config := mkConfig 400 false "/in" "/out" 0.

(** The state a schedule leads to. *)
Definition state_after (c : Config) (log : list (string * bool))
    (sched : list action) : State :=
  match run c sched (initial c log photos) with
  | Some s => s
  | None => initial c log photos
  end.

Definition final : State :=
  Eval vm_compute in state_after cfg [] schedule.

Definition at_error : State :=
  Eval vm_compute in state_after cfg [] before_error.

Definition at_join : State :=
  Eval vm_compute in state_after cfg [] before_interrupt.

Definition canceled_final : State :=
  Eval vm_compute in state_after cfg [] interrupted.

Definition started0 : State :=
  Eval vm_compute in initial cfg0 [("starting..."%string, false)] photos.

Definition stalled0 : State :=
  Eval vm_compute in
    state_after cfg0 [("starting..."%string, false)] (repeat Coordinator 5).

(** A batch with size 0 and one worker: [scale_one] divides by zero. *)
Definition cfg_zero : Config := mkConfig 0 false "/in" "/out" 1.

(** Up to the point where the worker enters the inner [try]. *)
Definition before_zero : list action :=
  [Coordinator; Coordinator; Coordinator; Coordinator; Coordinator; Worker 0].


(** The worker has been ended by the exception; two jobs are queued. *)
Definition stuck_zero : State :=
  Eval vm_compute in
    state_after cfg_zero [] (before_zero ++ [Worker 0; Worker 0]).

(** The state of that batch after an interrupt. *)
Definition canceled_zero : State :=
  Eval vm_compute in
    state_after cfg_zero [] (before_zero ++ [Worker 0; Worker 0; Interrupt]).

(** The batch with size 0 on a disk whose first image is empty: the
    worker copies it, is ended by the exception on the second image
    and leaves the third job queued, while its feeder thread still
    holds the Result of the first. *)
Definition odd_photos : disk :=
  [("/in/a.xpm", Picture 0 0); ("/in/b.xpm", Picture 800 400);
   ("/in/c.xpm", Picture 300 200)]%string.

Definition before_stuck_feeding : list action :=
  [Coordinator; Coordinator; Coordinator; Coordinator; Coordinator;
   Worker 0; Worker 0; Worker 0; Worker 0; Worker 0; Worker 0].

Definition stuck_feeding : State :=
  Eval vm_compute in
    match run cfg_zero before_stuck_feeding (initial cfg_zero [] odd_photos)
    with
    | Some s => s
    | None => initial cfg_zero [] odd_photos
    end.

(** A disk with images only, and a complete run of the batch on it. *)
Definition two_photos : disk :=
  [("/in/a.xpm", Picture 800 400); ("/in/b.xpm", Picture 300 200)]%string.

Definition clean_schedule : list action :=
  [Coordinator; Coordinator; Coordinator; Coordinator;
   Worker 0; Worker 0; Feeder 0; Worker 0;
   Worker 1; Worker 1; Feeder 1; Worker 1;
   Coordinator; Coordinator; Coordinator; Coordinator].

Definition clean_final : State :=
  Eval vm_compute in
    match run cfg clean_schedule (initial cfg [] two_photos) with
    | Some s => s
    | None => initial cfg [] two_photos
    end.

(** The same batch with a feeder thread that is late: worker 1 has put
    its Result and acknowledged its job, [jobs.join()] returns, and the
    loop of [scale] finds the queue empty after the Result of worker 0.
    The Result of worker 1 is written after [scale] has returned. *)
Definition late_schedule : list action :=
  [Coordinator; Coordinator; Coordinator; Coordinator;
   Worker 0; Worker 0; Feeder 0; Worker 0;
   Worker 1; Worker 1; Worker 1;
   Coordinator; Coordinator; Coordinator].

Definition late_final : State :=
  Eval vm_compute in
    match run cfg late_schedule (initial cfg [] two_photos) with
    | Some s => s
    | None => initial cfg [] two_photos
    end.

(** Both workers have put a Result, worker 0 first; the feeder thread
    of worker 1 writes first. *)
Definition crossed_schedule : list action :=
  [Coordinator; Coordinator; Coordinator; Coordinator;
   Worker 0; Worker 0; Worker 1; Worker 1; Feeder 1; Feeder 0].

Definition crossed : State :=
  Eval vm_compute in
    match run cfg crossed_schedule (initial cfg [] two_photos) with
    | Some s => s
    | None => initial cfg [] two_photos
    end.

Definition late_arrived : State :=
  Eval vm_compute in
    match run cfg (late_schedule ++ [Feeder 1]) (initial cfg [] two_photos)
    with
    | Some s => s
    | None => initial cfg [] two_photos
    end.

End Demo.

(** * Properties *)

(** ** Rounding *)

Module FloatFacts.
Import Float.

Lemma pow2_pos e : (0 < pow2 e)%Q.
Proof. unfold pow2. apply Qpower_0_lt. reflexivity. Qed.

Lemma pow2_add a b : (pow2 (a + b) == pow2 a * pow2 b)%Q.
Proof. unfold pow2. apply Qpower_plus. discriminate. Qed.

Lemma pow2_Z e : 0 <= e -> (pow2 e == inject_Z (2 ^ e))%Q.
Proof.
  intros He. unfold pow2.
  rewrite <- (Z2Nat.id e He). generalize (Z.to_nat e) as n. clear.
  induction n as [|n IH].
  - reflexivity.
  - rewrite Nat2Z.inj_succ, <- Z.add_1_r, Qpower_plus by discriminate.
    rewrite IH, Z.pow_add_r, Z.pow_1_r by lia.
    rewrite inject_Z_mult. reflexivity.
Qed.

Lemma pow2_0 : (pow2 0 == 1)%Q.
Proof. reflexivity. Qed.

Lemma pow2_opp e : (pow2 (- e) * pow2 e == 1)%Q.
Proof. rewrite <- pow2_add. replace (- e + e) with 0 by lia. reflexivity. Qed.

Lemma pow2_ge_1 e : 0 <= e -> (1 <= pow2 e)%Q.
Proof.
  intros He. rewrite (pow2_Z e He).
  change 1%Q with (inject_Z 1). rewrite <- Zle_Qle.
  pose proof (Z.pow_pos_nonneg 2 e). lia.
Qed.

Lemma pow2_le a b : a <= b -> (pow2 a <= pow2 b)%Q.
Proof.
  intros Hab. replace b with (a + (b - a)) by lia. rewrite pow2_add.
  pose proof (pow2_pos a). pose proof (pow2_ge_1 (b - a) ltac:(lia)). nra.
Qed.

Lemma pow2_lt a b : a < b -> (pow2 a < pow2 b)%Q.
Proof.
  intros Hab. replace b with (a + 1 + (b - a - 1)) by lia.
  rewrite !pow2_add.
  pose proof (pow2_pos a). pose proof (pow2_ge_1 (b - a - 1) ltac:(lia)).
  change (pow2 1) with 2%Q. nra.
Qed.

Lemma pow2_lt_inv a b : (pow2 a < pow2 b)%Q -> a < b.
Proof.
  intros H. destruct (Z_lt_le_dec a b) as [|Hle]; [assumption|].
  apply pow2_le in Hle. lra.
Qed.

Lemma mag_spec q : (0 < q)%Q -> (pow2 (mag q - 1) <= q < pow2 (mag q))%Q.
Proof.
  destruct q as [n d]. intros Hq.
  assert (Hn : 0 < n) by (unfold Qlt in Hq; simpl in Hq; lia).
  unfold mag. simpl Qabs. rewrite (Z.abs_eq n) by lia. simpl Qnum. simpl Qden.
  set (l1 := Z.log2 n). set (l2 := Z.log2 (Z.pos d)).
  destruct (Z.log2_spec n Hn) as [Hn1 Hn2]. fold l1 in Hn1, Hn2.
  destruct (Z.log2_spec (Z.pos d) eq_refl) as [Hd1 Hd2]. fold l2 in Hd1, Hd2.
  assert (Hl1 : 0 <= l1) by apply Z.log2_nonneg.
  assert (Hl2 : 0 <= l2) by apply Z.log2_nonneg.
  rewrite Zle_Qle in Hn1, Hd1. rewrite Zlt_Qlt in Hn2, Hd2.
  unfold Z.succ in Hn2, Hd2.
  rewrite <- pow2_Z in Hn1, Hn2, Hd1, Hd2 by lia.
  rewrite pow2_add in Hn2, Hd2. change (pow2 1) with 2%Q in Hn2, Hd2.
  assert (HE : (pow2 (l1 - l2) * pow2 l2 == pow2 l1)%Q).
  { rewrite <- pow2_add. replace (l1 - l2 + l2) with l1 by lia. reflexivity. }
  assert (Hq' : ((n # d) * inject_Z (Z.pos d) == inject_Z n)%Q).
  { rewrite (Qmake_Qdiv n d). field. discriminate. }
  pose proof (pow2_pos (l1 - l2)) as HEpos.
  pose proof (pow2_pos l2) as HP2.
  set (q := n # d) in *. set (E := pow2 (l1 - l2)) in *.
  assert (Hup : (q < 2 * E)%Q).
  { destruct (Qlt_le_dec q (2 * E)%Q) as [|Hc]; [assumption|exfalso]. nra. }
  assert (Hlo : (E * (1 # 2) < q)%Q).
  { destruct (Qlt_le_dec (E * (1 # 2))%Q q) as [|Hc]; [assumption|exfalso]. nra. }
  destruct (Qle_bool E q) eqn:Hb.
  - apply Qle_bool_iff in Hb.
    replace (l1 - l2 + 1 - 1) with (l1 - l2) by lia. fold E.
    rewrite pow2_add. change (pow2 1) with 2%Q. fold E. split; [assumption|lra].
  - assert (Hlt : (q < E)%Q).
    { destruct (Qlt_le_dec q E) as [|Hc]; [assumption|].
      apply Qle_bool_iff in Hc. congruence. }
    split; [|assumption].
    assert (Hh : (pow2 (l1 - l2 - 1) * 2 == E)%Q).
    { change 2%Q with (pow2 1). rewrite <- pow2_add.
      replace (l1 - l2 - 1 + 1) with (l1 - l2) by lia. reflexivity. }
    lra.
Qed.

Lemma mag_le_of_lt q e : (0 < q)%Q -> (q < pow2 e)%Q -> mag q <= e.
Proof.
  intros Hq Hlt. destruct (mag_spec q Hq) as [Hlo _].
  assert (H : mag q - 1 < e) by (apply pow2_lt_inv; lra). lia.
Qed.

Lemma mag_gt_of_le q e : (0 < q)%Q -> (pow2 e <= q)%Q -> e < mag q.
Proof.
  intros Hq Hle. destruct (mag_spec q Hq) as [_ Hhi].
  apply pow2_lt_inv. lra.
Qed.

Lemma rnd_even_cases x :
  rnd_even x = Qfloor x \/ rnd_even x = Qfloor x + 1.
Proof.
  unfold rnd_even. destruct (_ ?= _)%Q; auto. destruct (Z.even _); auto.
Qed.

Lemma rnd_even_near x :
  (inject_Z (rnd_even x) - (1 # 2) <= x <= inject_Z (rnd_even x) + (1 # 2))%Q.
Proof.
  pose proof (Qfloor_le x) as Hlo. pose proof (Qlt_floor x) as Hhi.
  rewrite inject_Z_plus in Hhi. change (inject_Z 1) with 1%Q in Hhi.
  unfold rnd_even.
  destruct (Qcompare_spec (x - inject_Z (Qfloor x)) (1 # 2)) as [He|Hl|Hg].
  - destruct (Z.even (Qfloor x)).
    + lra.
    + rewrite inject_Z_plus. change (inject_Z 1) with 1%Q. lra.
  - lra.
  - rewrite inject_Z_plus. change (inject_Z 1) with 1%Q. lra.
Qed.

Lemma rnd_even_le x N : (x <= inject_Z N)%Q -> rnd_even x <= N.
Proof.
  intros Hx. pose proof (Qfloor_le x) as Hlo.
  assert (Hf : Qfloor x <= N).
  { rewrite <- (Qfloor_Z N). apply Qfloor_resp_le. assumption. }
  destruct (Z.eq_dec (Qfloor x) N) as [He|Hne].
  - unfold rnd_even. rewrite He in *.
    destruct (Qcompare_spec (x - inject_Z N) (1 # 2)) as [Hc|Hc|Hc]; try lra; lia.
  - destruct (rnd_even_cases x); lia.
Qed.

Lemma rnd_even_ge x N : (inject_Z N <= x)%Q -> N <= rnd_even x.
Proof.
  intros Hx.
  assert (Hf : N <= Qfloor x).
  { rewrite <- (Qfloor_Z N). apply Qfloor_resp_le. assumption. }
  destruct (rnd_even_cases x); lia.
Qed.

Lemma rnd_even_above_half x N :
  (inject_Z N + (1 # 2) < x)%Q -> N + 1 <= rnd_even x.
Proof.
  intros Hx.
  assert (Hf : N <= Qfloor x).
  { rewrite <- (Qfloor_Z N). apply Qfloor_resp_le. lra. }
  destruct (Z.eq_dec (Qfloor x) N) as [He|Hne].
  - unfold rnd_even. rewrite He.
    destruct (Qcompare_spec (x - inject_Z N) (1 # 2)) as [Hc|Hc|Hc]; try lra; lia.
  - destruct (rnd_even_cases x); lia.
Qed.

Lemma F2Q_round q :
  (F2Q (round q) == inject_Z (rnd_even (q * pow2 (- cexp q))) * pow2 (cexp q))%Q.
Proof. reflexivity. Qed.

Lemma round_nonneg q : (0 <= q)%Q -> (0 <= F2Q (round q))%Q.
Proof.
  intros Hq. rewrite F2Q_round.
  pose proof (pow2_pos (cexp q)) as Hpc. pose proof (pow2_pos (- cexp q)) as Hpmc.
  assert (H0 : (inject_Z 0 <= q * pow2 (- cexp q))%Q).
  { change (inject_Z 0) with 0%Q. nra. }
  apply rnd_even_ge in H0. rewrite Zle_Qle in H0.
  change (inject_Z 0) with 0%Q in H0. nra.
Qed.

(** Rounding never crosses an integer that is a multiple of the quantum. *)
Lemma round_le_int q K :
  (0 < q)%Q -> (q <= inject_Z K)%Q -> (q < pow2 prec)%Q ->
  (F2Q (round q) <= inject_Z K)%Q.
Proof.
  intros Hq HK Hp. rewrite F2Q_round.
  assert (Hm : mag q <= prec) by (apply mag_le_of_lt; assumption).
  set (c := cexp q).
  assert (Hc : c <= 0) by (unfold c, cexp, prec, emin in *; lia).
  pose proof (pow2_pos c) as Hpc. pose proof (pow2_pos (- c)) as Hpmc.
  pose proof (pow2_opp c) as Hinv.
  assert (HN : (q * pow2 (- c) <= inject_Z (K * 2 ^ (- c)))%Q).
  { rewrite inject_Z_mult, <- pow2_Z by lia. nra. }
  apply rnd_even_le in HN. rewrite Zle_Qle, inject_Z_mult, <- pow2_Z in HN by lia.
  nra.
Qed.

(** A quotient [w / s] of integers with [w < 2^53] that exceeds the
    integer [K] still exceeds it once rounded. *)
Lemma round_gt_int w s K :
  0 < s -> 0 < w < 2 ^ prec -> 1 <= K -> K * s < w ->
  (inject_Z K < F2Q (round (inject_Z w / inject_Z s)))%Q.
Proof.
  intros Hs [Hw0 Hw] HK Hlt. set (q := (inject_Z w / inject_Z s)%Q).
  assert (HsQ : (0 < inject_Z s)%Q)
    by (change 0%Q with (inject_Z 0); rewrite <- Zlt_Qlt; lia).
  assert (Hqs : (q * inject_Z s == inject_Z w)%Q) by (unfold q; field; lra).
  assert (HwQ : (inject_Z w < pow2 prec)%Q).
  { rewrite pow2_Z by (unfold prec; lia). rewrite <- Zlt_Qlt. assumption. }
  assert (H1s : (1 <= inject_Z s)%Q)
    by (change 1%Q with (inject_Z 1); rewrite <- Zle_Qle; lia).
  assert (HKQ : (1 <= inject_Z K)%Q)
    by (change 1%Q with (inject_Z 1); rewrite <- Zle_Qle; lia).
  assert (Hgap : (inject_Z K * inject_Z s + 1 <= inject_Z w)%Q).
  { change 1%Q with (inject_Z 1).
    rewrite <- inject_Z_mult, <- inject_Z_plus, <- Zle_Qle. lia. }
  assert (HqK : (inject_Z K < q)%Q).
  { destruct (Qlt_le_dec (inject_Z K) q) as [|Hc]; [assumption|exfalso]. nra. }
  assert (Hq0 : (0 < q)%Q) by lra.
  assert (Hqw : (q <= inject_Z w)%Q) by nra.
  assert (Hm1 : 0 < mag q)
    by (apply mag_gt_of_le; [assumption|rewrite pow2_0; lra]).
  assert (Hm2 : mag q <= prec) by (apply mag_le_of_lt; [assumption|lra]).
  rewrite F2Q_round. fold q.
  assert (Hce : cexp q = mag q - prec) by (unfold cexp, prec, emin in *; lia).
  set (c := cexp q) in *.
  assert (Hc : c <= 0) by lia.
  pose proof (pow2_pos c) as Hpc. pose proof (pow2_pos (- c)) as Hpmc.
  pose proof (pow2_opp c) as Hinv.
  destruct (mag_spec q Hq0) as [Hlo _].
  replace (mag q - 1) with (c + (prec - 1)) in Hlo by lia.
  rewrite pow2_add in Hlo.
  assert (Hp52 : (pow2 (prec - 1) * 2 == pow2 prec)%Q).
  { change 2%Q with (pow2 1). rewrite <- pow2_add. reflexivity. }
  pose proof (pow2_pos (prec - 1)) as Hp52pos.
  (* the quantum is below 2/s, so q - K >= 1/s is more than half of it *)
  assert (Hquant : (inject_Z s * pow2 c < 2)%Q).
  { destruct (Qlt_le_dec (inject_Z s * pow2 c) 2) as [|Hcn];
      [assumption|exfalso].
    assert ((2 * pow2 (prec - 1)
             <= inject_Z s * (pow2 c * pow2 (prec - 1)))%Q) by nra.
    assert ((inject_Z s * (pow2 c * pow2 (prec - 1))
             <= inject_Z s * q)%Q) by nra.
    lra. }
  assert (Hhalf : (inject_Z (K * 2 ^ (- c)) + (1 # 2) < q * pow2 (- c))%Q).
  { rewrite inject_Z_mult, <- pow2_Z by lia.
    assert (Hd : (pow2 (- c)
                  <= (q - inject_Z K) * inject_Z s * pow2 (- c))%Q) by nra.
    assert (He : (inject_Z s < 2 * pow2 (- c))%Q).
    { destruct (Qlt_le_dec (inject_Z s) (2 * pow2 (- c))) as [|Hcn];
        [assumption|exfalso].
      assert ((2 * pow2 (- c) * pow2 c <= inject_Z s * pow2 c)%Q) by nra.
      lra. }
    destruct (Qlt_le_dec (inject_Z K * pow2 (- c) + (1 # 2))
                (q * pow2 (- c))) as [|Hcn]; [assumption|exfalso].
    assert (Hx : ((q - inject_Z K) * pow2 (- c) <= 1 # 2)%Q) by lra.
    assert (((q - inject_Z K) * pow2 (- c) * inject_Z s
             <= (1 # 2) * inject_Z s)%Q) by nra.
    lra. }
  apply rnd_even_above_half in Hhalf.
  rewrite Zle_Qle, inject_Z_plus, inject_Z_mult, <- pow2_Z in Hhalf by lia.
  change (inject_Z 1) with 1%Q in Hhalf. nra.
Qed.

(** The relative error of rounding is at most [2^-53] in the normal
    range. *)
Lemma round_rel_err q :
  (0 < q)%Q -> emin <= mag q - prec ->
  (q * (1 - pow2 (- prec)) <= F2Q (round q) <= q * (1 + pow2 (- prec)))%Q.
Proof.
  intros Hq Hn. rewrite F2Q_round.
  assert (Hce : cexp q = mag q - prec) by (unfold cexp; lia).
  set (c := cexp q) in *.
  pose proof (pow2_pos c) as Hpc. pose proof (pow2_pos (- c)) as Hpmc.
  pose proof (pow2_opp c) as Hinv.
  destruct (mag_spec q Hq) as [Hlo _].
  replace (mag q - 1) with (c + (prec - 1)) in Hlo by lia.
  rewrite pow2_add in Hlo.
  pose proof (rnd_even_near (q * pow2 (- c))) as [Hn1 Hn2].
  set (m := inject_Z (rnd_even (q * pow2 (- c)))) in *.
  assert (Hu : (pow2 (prec - 1) * pow2 (- prec) == 1 # 2)%Q).
  { rewrite <- pow2_add. reflexivity. }
  pose proof (pow2_pos (prec - 1)) as Hp52pos.
  pose proof (pow2_pos (- prec)) as Hupos.
  (* half a quantum is at most q * 2^-53 *)
  assert (Hh : ((1 # 2) * pow2 c <= q * pow2 (- prec))%Q).
  { assert ((pow2 c * pow2 (prec - 1) * pow2 (- prec)
             <= q * pow2 (- prec))%Q) by nra.
    nra. }
  assert (Hq' : (q * pow2 (- c) * pow2 c == q)%Q) by nra.
  split; nra.
Qed.

Lemma ltb_lt a b : ltb a b = true <-> (F2Q a < F2Q b)%Q.
Proof.
  unfold ltb. destruct (Qcompare_spec (F2Q a) (F2Q b)) as [H|H|H];
    split; intros; try discriminate; try reflexivity; lra.
Qed.

Lemma ltb_ge a b : ltb a b = false <-> (F2Q b <= F2Q a)%Q.
Proof.
  unfold ltb. destruct (Qcompare_spec (F2Q a) (F2Q b)) as [H|H|H];
    split; intros; try discriminate; try reflexivity; lra.
Qed.

Lemma Qceiling_unique x K :
  (inject_Z (K - 1) < x)%Q -> (x <= inject_Z K)%Q -> Qceiling x = K.
Proof.
  intros Hlo Hhi.
  assert (H1 : Qceiling x <= K).
  { rewrite <- (Qceiling_Z K). apply Qceiling_resp_le. assumption. }
  assert (H2 : K - 1 < Qceiling x).
  { rewrite Zlt_Qlt. pose proof (Qle_ceiling x). lra. }
  lia.
Qed.

(** Division of positive integers whose rounded quotient stays below
    [2^1024] does not raise. *)
Lemma truediv_ok a b :
  0 < b -> (0 <= inject_Z a / inject_Z b)%Q ->
  (F2Q (round (inject_Z a / inject_Z b)) < pow2 emax)%Q ->
  truediv a b = Ok (round (inject_Z a / inject_Z b)).
Proof.
  intros Hb Hq Hlt. unfold truediv.
  destruct (Z.eqb_spec b 0) as [|_]; [lia|].
  pose proof (round_nonneg _ Hq) as H0.
  destruct (Qle_bool _ _) eqn:E; [|reflexivity].
  apply Qle_bool_iff in E. rewrite Qabs_pos in E by assumption. lra.
Qed.

End FloatFacts.

(** ** scale_one *)

Section Scaling.

Context {lib : ImageLibrary}.
Import Float FloatFacts.

Lemma inject_Z_pos n : 0 < n -> (0 < inject_Z n)%Q.
Proof. intros H. change 0%Q with (inject_Z 0). rewrite <- Zlt_Qlt. lia. Qed.

Lemma inject_Z_lt_pow2 n e : 0 <= e -> n < 2 ^ e -> (inject_Z n < pow2 e)%Q.
Proof. intros He H. rewrite pow2_Z by assumption. rewrite <- Zlt_Qlt. lia. Qed.

Lemma quotient_mul a b : 0 < b -> (inject_Z a / inject_Z b * inject_Z b == inject_Z a)%Q.
Proof. intros Hb. pose proof (inject_Z_pos b Hb). field. lra. Qed.

Lemma quotient_pos a b : 0 < a -> 0 < b -> (0 < inject_Z a / inject_Z b)%Q.
Proof.
  intros Ha Hb. pose proof (inject_Z_pos a Ha). pose proof (inject_Z_pos b Hb).
  pose proof (quotient_mul a b Hb).
  destruct (Qlt_le_dec 0 (inject_Z a / inject_Z b)) as [|Hc]; [assumption|exfalso].
  nra.
Qed.

Lemma quotient_le a b K :
  0 < b -> a <= K * b -> (inject_Z a / inject_Z b <= inject_Z K)%Q.
Proof.
  intros Hb H. pose proof (inject_Z_pos b Hb). pose proof (quotient_mul a b Hb).
  rewrite Zle_Qle, inject_Z_mult in H.
  destruct (Qlt_le_dec (inject_Z K) (inject_Z a / inject_Z b)) as [Hc|];
    [exfalso|assumption].
  nra.
Qed.

(** A quotient of positive integers below [2^53] rounds to a float that
    is at most any integer bound of the exact quotient. *)
Lemma truediv_le_int a b K :
  0 < a < 2 ^ 53 -> 0 < b -> a <= K * b ->
  truediv a b = Ok (round (inject_Z a / inject_Z b)) /\
  (F2Q (round (inject_Z a / inject_Z b)) <= inject_Z K)%Q.
Proof.
  intros [Ha0 Ha] Hb HK.
  pose proof (quotient_pos a b Ha0 Hb) as Hq0.
  pose proof (quotient_le a b K Hb HK) as HqK.
  assert (Hqa : (inject_Z a / inject_Z b <= inject_Z a)%Q).
  { apply quotient_le; [assumption|]. nia. }
  pose proof (inject_Z_lt_pow2 a prec ltac:(unfold prec; lia) Ha) as HaQ.
  assert (Hlt : (inject_Z a / inject_Z b < pow2 prec)%Q) by lra.
  pose proof (round_le_int _ _ Hq0 Hqa Hlt) as Hra.
  split.
  - apply truediv_ok; [assumption|lra|].
    pose proof (pow2_lt prec emax ltac:(unfold prec, emax; lia)). lra.
  - apply round_le_int; assumption.
Qed.

(** C4: an image that fits the size is saved as it is: the only call on
    the file system is [save] of the loaded image to the target path, and
    the Result, when [save] does not raise, is [Result(1, 0, target)],
    whatever [smooth] is. *)
Theorem scale_one_copies_small_image :
  forall (size : Z) (smooth : bool) (sourceImage targetImage : string)
         (fs : world) (oldImage : Image),
    Image_from_file sourceImage fs = Ok oldImage ->
    width oldImage <= size ->
    height oldImage <= size ->
    scale_one size smooth sourceImage targetImage fs
    = (match fst (Image_save oldImage targetImage fs) with
       | Ok _ => Ok (mkResult 1 0 targetImage)
       | Raise e => Raise e
       end, snd (Image_save oldImage targetImage fs)) /\
    (forall result fs',
        scale_one size smooth sourceImage targetImage fs = (Ok result, fs') ->
        copied result = 1 /\ scaled result = 0 /\ name result = targetImage).
Proof.
  intros size smooth src tgt fs img Hload Hw Hh.
  assert (E : scale_one size smooth src tgt fs
              = (match fst (Image_save img tgt fs) with
                 | Ok _ => Ok (mkResult 1 0 tgt)
                 | Raise e => Raise e
                 end, snd (Image_save img tgt fs))).
  { unfold scale_one, io_bind, io_pure, io_ret. rewrite Hload.
    apply Z.leb_le in Hw. apply Z.leb_le in Hh. rewrite Hw, Hh. simpl.
    destruct (Image_save img tgt fs) as [[u|e] fs']; reflexivity. }
  split; [exact E|].
  intros result fs' Hres. rewrite E in Hres.
  destruct (fst (Image_save img tgt fs)); inversion Hres; subst; auto.
Qed.

(** C6, as amended: for an image with dimensions below [2^53] that does
    not fit the size, the stride is the ceiling of
    [max(width / size, height / size)]; it is at least 1 and is the
    smallest positive integer [k] with [width <= k * size] and
    [height <= k * size]. *)
Theorem subsample_stride_smallest :
  forall size w h : Z,
    0 < size -> 0 < w < 2 ^ 53 -> 0 < h < 2 ^ 53 ->
    size < w \/ size < h ->
    let stride := (Z.max w h + size - 1) / size in
    subsample_stride size w h = Ok stride /\
    (stride - 1) * size < Z.max w h <= stride * size /\
    1 <= stride /\
    w <= stride * size /\ h <= stride * size /\
    (forall k, 0 < k -> w <= k * size -> h <= k * size -> stride <= k).
Proof.
  intros size w h Hs Hw Hh Hbig stride.
  set (M := Z.max w h) in *.
  assert (HM : (stride - 1) * size < M <= stride * size).
  { unfold stride.
    pose proof (Z.div_mod (M + size - 1) size ltac:(lia)) as Hdm.
    pose proof (Z.mod_pos_bound (M + size - 1) size Hs). nia. }
  assert (HMs : size < M) by (unfold M; lia).
  assert (H2 : 2 <= stride) by nia.
  assert (Hwk : w <= stride * size) by (unfold M in HM; lia).
  assert (Hhk : h <= stride * size) by (unfold M in HM; lia).
  destruct (truediv_le_int w size stride Hw Hs Hwk) as [Ew Uw].
  destruct (truediv_le_int h size stride Hh Hs Hhk) as [Eh Uh].
  split; [|repeat split; try lia].
  - unfold subsample_stride. rewrite Ew, Eh. simpl. f_equal.
    set (fw := round (inject_Z w / inject_Z size)) in *.
    set (fh := round (inject_Z h / inject_Z size)) in *.
    unfold ceil. apply Qceiling_unique.
    + destruct (Z.max_spec w h) as [[_ HMe]|[_ HMe]]; fold M in HMe.
      * assert (Hgt : (inject_Z (stride - 1) < F2Q fh)%Q).
        { apply round_gt_int; [assumption|assumption|lia|lia]. }
        unfold Float.max. destruct (ltb fw fh) eqn:E; [assumption|].
        apply ltb_ge in E. lra.
      * assert (Hgt : (inject_Z (stride - 1) < F2Q fw)%Q).
        { apply round_gt_int; [assumption|assumption|lia|lia]. }
        unfold Float.max. destruct (ltb fw fh) eqn:E; [|assumption].
        apply ltb_lt in E. lra.
    + unfold Float.max. destruct (ltb fw fh); assumption.
  - intros k Hk Hkw Hkh.
    assert (M <= k * size) by (unfold M; lia). nia.
Qed.

(** A quotient of positive integers below [2^1000]: no overflow, and a
    relative rounding error of at most [2^-53]. *)
Lemma truediv_rel_err a b :
  0 < a < 2 ^ 1000 -> 0 < b < 2 ^ 1000 ->
  let q := (inject_Z a / inject_Z b)%Q in
  truediv a b = Ok (round q) /\
  (q * (1 - pow2 (- prec)) <= F2Q (round q) <= q * (1 + pow2 (- prec)))%Q.
Proof.
  intros [Ha0 Ha] [Hb0 Hb] q.
  pose proof (quotient_pos a b Ha0 Hb0) as Hq0. fold q in Hq0.
  pose proof (quotient_mul a b Hb0) as Hqb. fold q in Hqb.
  pose proof (inject_Z_pos a Ha0) as HaP. pose proof (inject_Z_pos b Hb0) as HbP.
  pose proof (inject_Z_lt_pow2 a 1000 ltac:(lia) Ha) as HaQ.
  pose proof (inject_Z_lt_pow2 b 1000 ltac:(lia) Hb) as HbQ.
  assert (H1a : (1 <= inject_Z a)%Q)
    by (change 1%Q with (inject_Z 1); rewrite <- Zle_Qle; lia).
  assert (H1b : (1 <= inject_Z b)%Q)
    by (change 1%Q with (inject_Z 1); rewrite <- Zle_Qle; lia).
  assert (Hinv : (pow2 (- 1000) * pow2 1000 == 1)%Q)
    by (rewrite <- pow2_add; reflexivity).
  pose proof (pow2_pos 1000) as HP. pose proof (pow2_pos (- 1000)) as HPm.
  assert (Hlo : (pow2 (- 1000) <= q)%Q).
  { destruct (Qlt_le_dec q (pow2 (- 1000))) as [Hc|]; [exfalso|assumption].
    assert ((q * inject_Z b <= pow2 (- 1000) * inject_Z b)%Q) by nra.
    assert ((pow2 (- 1000) * inject_Z b < pow2 (- 1000) * pow2 1000)%Q) by nra.
    lra. }
  assert (Hhi : (q < pow2 1000)%Q).
  { destruct (Qlt_le_dec q (pow2 1000)) as [|Hc]; [assumption|exfalso].
    assert ((pow2 1000 * inject_Z b <= q * inject_Z b)%Q) by nra.
    assert ((pow2 1000 * 1 <= pow2 1000 * inject_Z b)%Q) by nra.
    lra. }
  assert (Hm1 : - 1000 < mag q) by (apply mag_gt_of_le; assumption).
  assert (Hm2 : mag q <= 1000) by (apply mag_le_of_lt; assumption).
  assert (Hn : emin <= mag q - prec) by (unfold emin, prec; lia).
  pose proof (round_rel_err q Hq0 Hn) as Herr.
  split; [|exact Herr].
  apply truediv_ok; fold q; [assumption|lra|].
  destruct Herr as [_ Herr].
  pose proof (pow2_le (- prec) 0 ltac:(unfold prec; lia)) as Hu.
  rewrite pow2_0 in Hu.
  assert (H2 : (pow2 1000 * 2 == pow2 1001)%Q).
  { change 2%Q with (pow2 1). rewrite <- pow2_add. reflexivity. }
  pose proof (pow2_lt 1001 emax ltac:(unfold emax; lia)).
  pose proof (pow2_pos (- prec)). nra.
Qed.

Lemma min_le_l a b : (F2Q (Float.min a b) <= F2Q a)%Q.
Proof.
  unfold Float.min. destruct (ltb b a) eqn:E; [|lra].
  apply ltb_lt in E. lra.
Qed.

Lemma min_le_r a b : (F2Q (Float.min a b) <= F2Q b)%Q.
Proof.
  unfold Float.min. destruct (ltb b a) eqn:E; [lra|].
  apply ltb_ge in E. assumption.
Qed.

Lemma min_cases a b : Float.min a b = a \/ Float.min a b = b.
Proof. unfold Float.min. destruct (ltb b a); auto. Qed.

(** C5, as amended: for an image that does not fit the size, with size
    and dimensions below [2^1000], the factor is the smaller of the two
    quotients [size / width] and [size / height], each rounded to the
    nearest float.  It is at most 1, [factor * width] and
    [factor * height] exceed the size by at most the relative rounding
    error [2^-53], and every real [g] with [g * width <= size] and
    [g * height <= size] is at most the factor up to that error. *)
Theorem scale_factor_nearly_maximal :
  forall size w h : Z,
    0 < size < 2 ^ 1000 -> 0 < w < 2 ^ 1000 -> 0 < h < 2 ^ 1000 ->
    size < w \/ size < h ->
    let u := pow2 (- 53) in
    let factor :=
      Float.min (round (inject_Z size / inject_Z w))
                (round (inject_Z size / inject_Z h)) in
    scale_factor size w h = Ok factor /\
    (F2Q factor <= 1)%Q /\
    (F2Q factor * inject_Z w <= inject_Z size * (1 + u))%Q /\
    (F2Q factor * inject_Z h <= inject_Z size * (1 + u))%Q /\
    (forall g : Q,
        (g * inject_Z w <= inject_Z size)%Q ->
        (g * inject_Z h <= inject_Z size)%Q ->
        (g * (1 - u) <= F2Q factor)%Q).
Proof.
  intros size w h Hs Hw Hh Hbig u factor.
  destruct (truediv_rel_err size w Hs Hw) as [Ew [Lw Uw]].
  destruct (truediv_rel_err size h Hs Hh) as [Eh [Lh Uh]].
  pose proof (quotient_mul size w ltac:(lia)) as Hqw.
  pose proof (quotient_mul size h ltac:(lia)) as Hqh.
  pose proof (quotient_pos size w ltac:(lia) ltac:(lia)) as Hqw0.
  pose proof (quotient_pos size h ltac:(lia) ltac:(lia)) as Hqh0.
  pose proof (inject_Z_pos w ltac:(lia)) as HwP.
  pose proof (inject_Z_pos h ltac:(lia)) as HhP.
  pose proof (inject_Z_pos size ltac:(lia)) as HsP.
  set (qw := (inject_Z size / inject_Z w)%Q) in *.
  set (qh := (inject_Z size / inject_Z h)%Q) in *.
  pose proof (min_le_l (round qw) (round qh)) as Hml.
  pose proof (min_le_r (round qw) (round qh)) as Hmr.
  fold factor in Hml, Hmr.
  change (pow2 (- prec)) with u in *.
  assert (Hu0 : (0 < u)%Q) by apply pow2_pos.
  assert (Hu1 : (u <= 1)%Q).
  { pose proof (pow2_le (- 53) 0 ltac:(lia)) as H. rewrite pow2_0 in H. exact H. }
  split; [|split; [|split; [|split]]].
  - unfold scale_factor. rewrite Ew, Eh. reflexivity.
  - pose proof (pow2_ge_1 prec ltac:(unfold prec; lia)) as Hp.
    destruct Hbig as [Hb|Hb].
    + assert (Hq1 : (qw <= inject_Z 1)%Q) by (apply quotient_le; lia).
      assert (H1 : (F2Q (round qw) <= inject_Z 1)%Q).
      { apply round_le_int; [assumption|assumption|].
        change (inject_Z 1) with 1%Q in Hq1.
        pose proof (pow2_lt 0 prec ltac:(unfold prec; lia)) as Hl.
        rewrite pow2_0 in Hl. lra. }
      change (inject_Z 1) with 1%Q in H1. lra.
    + assert (Hq1 : (qh <= inject_Z 1)%Q) by (apply quotient_le; lia).
      assert (H1 : (F2Q (round qh) <= inject_Z 1)%Q).
      { apply round_le_int; [assumption|assumption|].
        change (inject_Z 1) with 1%Q in Hq1.
        pose proof (pow2_lt 0 prec ltac:(unfold prec; lia)) as Hl.
        rewrite pow2_0 in Hl. lra. }
      change (inject_Z 1) with 1%Q in H1. lra.
  - assert ((F2Q (round qw) * inject_Z w
             <= qw * (1 + u) * inject_Z w)%Q) by nra.
    assert ((F2Q factor * inject_Z w
             <= F2Q (round qw) * inject_Z w)%Q) by nra.
    nra.
  - assert ((F2Q (round qh) * inject_Z h
             <= qh * (1 + u) * inject_Z h)%Q) by nra.
    assert ((F2Q factor * inject_Z h
             <= F2Q (round qh) * inject_Z h)%Q) by nra.
    nra.
  - intros g Hgw Hgh.
    assert (Hgqw : (g <= qw)%Q).
    { destruct (Qlt_le_dec qw g) as [Hc|]; [exfalso|assumption]. nra. }
    assert (Hgqh : (g <= qh)%Q).
    { destruct (Qlt_le_dec qh g) as [Hc|]; [exfalso|assumption]. nra. }
    assert (Hgw' : (g * (1 - u) <= qw * (1 - u))%Q) by nra.
    assert (Hgh' : (g * (1 - u) <= qh * (1 - u))%Q) by nra.
    destruct (min_cases (round qw) (round qh)) as [E|E];
      fold factor in E; rewrite E; lra.
Qed.

End Scaling.

(** ** The batch *)

Section Batch.

Context {lib : ImageLibrary}.

(** *** Lists *)

Lemma flat_map_snoc {A B : Type} (f : A -> list B) (l : list A) (x : A) :
  flat_map f (l ++ [x]) = flat_map f l ++ f x.
Proof. rewrite flat_map_app. simpl. rewrite app_nil_r. reflexivity. Qed.

Lemma total_app f l1 l2 : total f (l1 ++ l2) = total f l1 + total f l2.
Proof.
  unfold total. induction l1 as [|r l1 IH]; simpl; [reflexivity|].
  rewrite IH. lia.
Qed.

Lemma total_copied_scaled rs :
  Forall one_of_copied_scaled rs ->
  total copied rs + total scaled rs = Z.of_nat (List.length rs) /\
  0 <= total copied rs /\ 0 <= total scaled rs.
Proof.
  induction 1 as [|r rs Hr _ IH].
  - simpl. lia.
  - change (total copied (r :: rs)) with (copied r + total copied rs).
    change (total scaled (r :: rs)) with (scaled r + total scaled rs).
    change (List.length (r :: rs)) with (S (List.length rs)).
    destruct Hr as [[H1 H2]|[H1 H2]]; lia.
Qed.

Lemma map_snd_enumerate {A : Type} (l : list A) (k : Z) :
  map snd (enumerate l k) = l.
Proof.
  revert k. induction l as [|x l IH]; intros k; simpl; [reflexivity|].
  rewrite IH. reflexivity.
Qed.

Lemma nth_error_update_same {A : Type} (l : list A) i x y :
  nth_error l i = Some y -> nth_error (update i x l) i = Some x.
Proof.
  revert i. induction l as [|a l IH]; intros [|i] H; simpl in *;
    try discriminate; auto.
Qed.

Lemma nth_error_update_other {A : Type} (l : list A) i k x :
  i <> k -> nth_error (update i x l) k = nth_error l k.
Proof.
  revert i k. induction l as [|a l IH]; intros [|i] [|k] H; simpl;
    try reflexivity; try congruence.
  apply IH. congruence.
Qed.

(** *** The jobs the workers hold *)

Lemma collect_update f k ps i p0 p :
  nth_error ps i = Some p0 ->
  Permutation (map (pair (k + i)%nat) (f p0) ++ collect f k (update i p ps))
              (map (pair (k + i)%nat) (f p) ++ collect f k ps).
Proof.
  revert k i. induction ps as [|a ps IH]; intros k [|i] H; simpl in H;
    try discriminate.
  - inversion H; subst a. simpl. rewrite Nat.add_0_r.
    apply Permutation_app_swap_app.
  - simpl. specialize (IH (S k) i H).
    replace (S k + i)%nat with (k + S i)%nat in IH by lia.
    rewrite Permutation_app_swap_app, IH.
    apply Permutation_app_swap_app.
Qed.

Lemma collect_In f k ps i p j :
  nth_error ps i = Some p -> In j (f p) -> In ((k + i)%nat, j) (collect f k ps).
Proof.
  revert k i. induction ps as [|a ps IH]; intros k [|i] H Hj; simpl in H;
    try discriminate.
  - inversion H; subst a. simpl. rewrite Nat.add_0_r.
    apply in_or_app. left. apply in_map. assumption.
  - simpl. apply in_or_app. right.
    replace (k + S i)%nat with (S k + i)%nat by lia. apply IH; assumption.
Qed.

Lemma collect_repeat_WGet f k n : f WGet = [] -> collect f k (repeat WGet n) = [].
Proof.
  intros Hf. revert k. induction n as [|n IH]; intros k; simpl; [reflexivity|].
  rewrite Hf, IH. reflexivity.
Qed.

Lemma running_le_holding k ps :
  (List.length (collect entering k ps) <= List.length (collect held k ps))%nat.
Proof.
  revert k. induction ps as [|p ps IH]; intros k; simpl; [lia|].
  rewrite !length_app, !length_map. specialize (IH (S k)).
  destruct p; simpl; lia.
Qed.

Lemma holding_update ps i p0 p :
  nth_error ps i = Some p0 ->
  Permutation (map (pair i) (held p0) ++ holding (update i p ps))
              (map (pair i) (held p) ++ holding ps).
Proof. intros H. exact (collect_update held 0 ps i p0 p H). Qed.

Lemma running_update ps i p0 p :
  nth_error ps i = Some p0 ->
  Permutation (map (pair i) (entering p0) ++ running (update i p ps))
              (map (pair i) (entering p) ++ running ps).
Proof. intros H. exact (collect_update entering 0 ps i p0 p H). Qed.

Lemma holding_nonempty ps i p j :
  nth_error ps i = Some p -> held p = [j] ->
  (0 < List.length (holding ps))%nat.
Proof.
  intros H Hj.
  assert (Hin : In (i, j) (holding ps)).
  { apply (collect_In held 0 ps i p j H). rewrite Hj. left. reflexivity. }
  destruct (holding ps); [contradiction|simpl; lia].
Qed.

(** *** The history *)

Lemma puts_snoc h e : puts (h ++ [e]) = puts h ++ puts [e].
Proof. apply flat_map_app. Qed.

Lemma gets_snoc h e : gets (h ++ [e]) = gets h ++ gets [e].
Proof. apply flat_map_app. Qed.

Lemma handled_snoc h e : handled (h ++ [e]) = handled h ++ handled [e].
Proof. apply flat_map_app. Qed.

Lemma produced_snoc h e : produced (h ++ [e]) = produced h ++ produced [e].
Proof. apply flat_map_app. Qed.

Lemma failed_snoc h e : failed (h ++ [e]) = failed h ++ failed [e].
Proof. apply flat_map_app. Qed.

Lemma acks_snoc h e : acks (h ++ [e]) = acks h ++ acks [e].
Proof. apply flat_map_app. Qed.

Lemma drained_snoc h e : drained (h ++ [e]) = drained h ++ drained [e].
Proof. apply flat_map_app. Qed.

Lemma arrived_snoc h e : arrived (h ++ [e]) = arrived h ++ arrived [e].
Proof. apply flat_map_app. Qed.

Ltac history_snoc :=
  rewrite ?puts_snoc, ?gets_snoc, ?handled_snoc, ?produced_snoc,
    ?failed_snoc, ?acks_snoc, ?drained_snoc, ?arrived_snoc;
  cbn [puts gets handled produced failed acks drained arrived flat_map app];
  rewrite ?app_nil_r.

(** *** The invariant holds initially and after each action *)

Lemma inv_initial cfg log w : Inv (initial cfg log w).
Proof.
  assert (Hh : holding (create_processes (concurrency cfg)) = [])
    by (apply collect_repeat_WGet; reflexivity).
  assert (Hr : running (create_processes (concurrency cfg)) = [])
    by (apply collect_repeat_WGet; reflexivity).
  constructor; unfold initial;
    cbn [history jobs procs results feeding items unfinished empty_queue
         puts gets handled produced failed acks drained arrived
         flat_map map app];
    rewrite ?Hh, ?Hr.
  - reflexivity.
  - apply Permutation_refl.
  - reflexivity.
  - apply Permutation_refl.
  - reflexivity.
  - reflexivity.
  - constructor.
  - unfold coordinator_inv. cbn [coordinator history puts drained flat_map].
    auto.
  - apply Permutation_refl.
Qed.

Lemma held_unfinished s w p j :
  Inv s -> nth_error (procs s) w = Some p -> held p = [j] ->
  unfinished (jobs s) <> O.
Proof.
  intros HI Hp Hj. pose proof (holding_nonempty _ _ _ _ Hp Hj).
  rewrite (inv_counter s HI). lia.
Qed.

(** A worker acts only while the counter of the queue is not zero; the
    coordinator is then not past a [join()] that returned. *)
Lemma coordinator_inv_worker s s' :
  coordinator_inv s -> unfinished (jobs s) <> O ->
  coordinator s' = coordinator s ->
  puts (history s') = puts (history s) ->
  drained (history s') = drained (history s) ->
  coordinator_inv s'.
Proof.
  unfold coordinator_inv, enqueued. intros HC Hu Hc Hp Hd.
  rewrite Hc, Hp, Hd.
  destruct (coordinator s) as [|it t|n|n c cp sc|summary|e]; try assumption.
  - destruct HC as (H1 & H2 & H3 & H4 & H5). repeat split; try assumption.
    intros Hf. specialize (H5 Hf). contradiction.
  - destruct HC as (H1 & H2 & H3 & H4 & H5). repeat split; try assumption.
    intros Hf. specialize (H5 Hf). contradiction.
Qed.

Lemma perm_snoc_middle {A : Type} (l a b : list A) (x : A) :
  Permutation l (a ++ b) -> Permutation (l ++ [x]) (a ++ x :: b).
Proof.
  intros H. transitivity (x :: l).
  - apply Permutation_sym, Permutation_cons_append.
  - transitivity (x :: a ++ b).
    + apply perm_skip. exact H.
    + apply Permutation_middle.
Qed.

Lemma perm_move_snoc {A : Type} (l a b b' : list A) (x : A) :
  Permutation l (a ++ b) -> Permutation (x :: b') b ->
  Permutation l ((a ++ [x]) ++ b').
Proof.
  intros H Hb. rewrite H, <- Hb, <- app_assoc. reflexivity.
Qed.

Lemma inv_get w job rest s :
  Inv s -> nth_error (procs s) w = Some WGet ->
  items (jobs s) = job :: rest ->
  Inv (mkState (mkQueue rest (unfinished (jobs s))) (results s) (reported s)
         (fs s) (coordinator s) (update w (WRun job) (procs s))
         (history s ++ [EvGet w job]) (feeding s)).
Proof.
  intros HI Hp Hit.
  pose proof (holding_update _ w _ (WRun job) Hp) as Hh.
  pose proof (running_update _ w _ (WRun job) Hp) as Hr.
  cbn [held entering map app] in Hh, Hr.
  assert (Hu : unfinished (jobs s) <> O).
  { rewrite (inv_counter s HI), Hit. simpl. lia. }
  pose proof (inv_coordinator s HI) as Hco'.
  destruct HI as [Hfifo Hacks Hcnt Hhand Hout Hres Hprod Hco Hfeed].
  constructor; cbn [history jobs procs results feeding items unfinished];
    history_snoc.
  - rewrite Hfifo, Hit, map_app, <- app_assoc. reflexivity.
  - rewrite Hh. apply perm_snoc_middle. assumption.
  - rewrite (Permutation_length Hh), Hcnt, Hit. simpl. lia.
  - rewrite Hr. apply perm_snoc_middle. assumption.
  - assumption.
  - assumption.
  - assumption.
  - apply (coordinator_inv_worker s); try assumption; try reflexivity;
      cbn [history]; history_snoc; reflexivity.
  - assumption.
Qed.

Lemma scale_one_result size smooth sourceImage targetImage fs result fs' :
  scale_one size smooth sourceImage targetImage fs = (Ok result, fs') ->
  result = mkResult 1 0 targetImage \/ result = mkResult 0 1 targetImage.
Proof.
  unfold scale_one, io_bind, io_pure, io_ret.
  destruct (Image_from_file sourceImage fs) as [img|e]; [|discriminate].
  destruct (_ && _)%bool.
  - destruct (Image_save img targetImage fs) as [[u|e] fs1]; [|discriminate].
    intros H. inversion H. auto.
  - destruct smooth.
    + destruct (bind _ _) as [new|e]; [|discriminate].
      destruct (Image_save new targetImage fs) as [[u|e] fs1]; [|discriminate].
      intros H. inversion H. auto.
    + destruct (bind _ _) as [new|e]; [|discriminate].
      destruct (Image_save new targetImage fs) as [[u|e] fs1]; [|discriminate].
      intros H. inversion H. auto.
Qed.

Lemma inv_try cfg w job s :
  Inv s -> nth_error (procs s) w = Some (WRun job) ->
  Inv (worker_try cfg w job s).
Proof.
  intros HI Hp.
  assert (Hh : forall pend,
             Permutation (holding (update w (WFinally job pend) (procs s)))
                         (holding (procs s))).
  { intros pend. pose proof (holding_update _ w _ (WFinally job pend) Hp) as H.
    cbn [held map] in H. apply Permutation_app_inv_l in H. exact H. }
  assert (Hr : forall pend,
             Permutation
               ((w, job) :: running (update w (WFinally job pend) (procs s)))
               (running (procs s))).
  { intros pend. pose proof (running_update _ w _ (WFinally job pend) Hp) as H.
    cbn [entering map app] in H. exact H. }
  assert (Hu : unfinished (jobs s) <> O)
    by (apply (held_unfinished s w _ job HI Hp); reflexivity).
  pose proof (inv_coordinator s HI) as Hco'.
  destruct HI as [Hfifo Hacks Hcnt Hhand Hout Hres Hprod Hco Hfeed].
  unfold worker_try.
  destruct (scale_one _ _ _ _ _) as [[result|[msg|cls]] fs'] eqn:Hone.
  - assert (Hgood : one_of_copied_scaled result).
    { destruct (scale_one_result _ _ _ _ _ _ _ Hone) as [E|E]; rewrite E;
        [left|right]; split; reflexivity. }
    constructor; cbn [history jobs procs results feeding items unfinished];
      history_snoc.
    + assumption.
    + rewrite Hh. assumption.
    + rewrite (Permutation_length (Hh None)). assumption.
    + apply (perm_move_snoc _ _ _ _ _ Hhand (Hr None)).
    + rewrite !length_app. simpl. lia.
    + assumption.
    + apply Forall_app. split; [assumption|]. constructor; [assumption|constructor].
    + apply (coordinator_inv_worker s); try assumption; try reflexivity;
        cbn [history]; history_snoc; reflexivity.
    + rewrite map_app, app_assoc. cbn [map snd].
      apply Permutation_app_tail. assumption.
  - constructor; cbn [history jobs procs results feeding items unfinished];
      history_snoc.
    + assumption.
    + rewrite Hh. assumption.
    + rewrite (Permutation_length (Hh None)). assumption.
    + apply (perm_move_snoc _ _ _ _ _ Hhand (Hr None)).
    + rewrite !length_app. simpl. lia.
    + assumption.
    + assumption.
    + apply (coordinator_inv_worker s); try assumption; try reflexivity;
        cbn [history]; history_snoc; reflexivity.
    + assumption.
  - constructor; cbn [history jobs procs results feeding items unfinished];
      history_snoc.
    + assumption.
    + rewrite Hh. assumption.
    + rewrite (Permutation_length (Hh _)). assumption.
    + apply (perm_move_snoc _ _ _ _ _ Hhand (Hr _)).
    + rewrite !length_app. simpl. lia.
    + assumption.
    + assumption.
    + apply (coordinator_inv_worker s); try assumption; try reflexivity;
        cbn [history]; history_snoc; reflexivity.
    + assumption.
Qed.

Lemma inv_finally w job pending s :
  Inv s -> nth_error (procs s) w = Some (WFinally job pending) ->
  Inv (worker_finally w job pending s).
Proof.
  intros HI Hp.
  assert (Hu : unfinished (jobs s) <> O)
    by (apply (held_unfinished s w _ job HI Hp); reflexivity).
  assert (Hh : forall p, held p = [] ->
             Permutation ((w, job) :: holding (update w p (procs s)))
                         (holding (procs s))).
  { intros p Hnil. pose proof (holding_update _ w _ p Hp) as H.
    rewrite Hnil in H. exact H. }
  assert (Hr : forall p, entering p = [] ->
             Permutation (running (update w p (procs s)))
                         (running (procs s))).
  { intros p Hnil. pose proof (running_update _ w _ p Hp) as H.
    rewrite Hnil in H. exact H. }
  pose proof (inv_coordinator s HI) as Hco'.
  destruct HI as [Hfifo Hacks Hcnt Hhand Hout Hres Hprod Hco Hfeed].
  unfold worker_finally, task_done.
  destruct (unfinished (jobs s)) as [|n] eqn:Hn; [contradiction|].
  set (p := match pending with Some e => WExit e | None => WGet end).
  assert (Hp1 : held p = []) by (unfold p; destruct pending; reflexivity).
  assert (Hp2 : entering p = []) by (unfold p; destruct pending; reflexivity).
  constructor; cbn [history jobs procs results feeding items unfinished];
    history_snoc.
  - assumption.
  - apply (perm_move_snoc _ _ _ _ _ Hacks (Hh p Hp1)).
  - pose proof (Permutation_length (Hh p Hp1)) as Hl. simpl in Hl. lia.
  - rewrite (Hr p Hp2). assumption.
  - assumption.
  - assumption.
  - assumption.
  - apply (coordinator_inv_worker s); try assumption; try reflexivity;
      try (cbn [history]; history_snoc; reflexivity).
    rewrite Hn. discriminate.
  - assumption.
Qed.

Lemma inv_worker_step cfg w s s' :
  Inv s -> worker_step cfg w s = Some s' -> Inv s'.
Proof.
  intros HI. unfold worker_step.
  destruct (nth_error (procs s) w) as [[|job|job pending|e]|] eqn:Hp;
    try discriminate.
  - unfold get. destruct (items (jobs s)) as [|job rest] eqn:Hit;
      [discriminate|].
    intros H. inversion H. apply inv_get; assumption.
  - intros H. inversion H. apply inv_try; assumption.
  - intros H. inversion H. apply inv_finally; assumption.
Qed.

(** The coordinator moves on without touching queues or history. *)
Lemma inv_set_coordinator pc s :
  Inv s -> coordinator_inv (set_coordinator pc s) ->
  Inv (set_coordinator pc s).
Proof.
  intros [Hfifo Hacks Hcnt Hhand Hout Hres Hprod Hco Hfeed] Hpc.
  constructor; try assumption.
Qed.

Lemma inv_scale_step cfg s s' :
  Inv s -> scale_step cfg s = Some s' -> Inv s'.
Proof.
  intros HI. pose proof (inv_coordinator s HI) as Hco.
  unfold scale_step. unfold coordinator_inv in Hco.
  destruct (coordinator s) as [|it t|n|n c cp sc|summary|e] eqn:Hpc;
    try discriminate.
  - (* add_jobs lists the source directory *)
    destruct Hco as [Hputs Hdr].
    destruct (os_listdir (source cfg) (fs s)) as [names|e];
      intros H; inversion H; apply inv_set_coordinator; try assumption;
      unfold coordinator_inv, enqueued; cbn [set_coordinator coordinator history];
      [|exact I].
    rewrite Hputs. cbn [List.length Z.of_nat Z.add Z.eqb].
    rewrite map_snd_enumerate. auto.
  - destruct Hco as (Hit & Ht & Hdr).
    destruct it as [|[n name] rest].
    + (* the loop is over: return todo *)
      destruct t as [n|]; intros H; inversion H; apply inv_set_coordinator;
        try assumption;
        unfold coordinator_inv; cbn [set_coordinator coordinator history];
        [|exact I].
      assert (He : enqueued (set_coordinator (SJoin n) s) = enqueued s)
        by reflexivity.
      rewrite He. destruct (Z.eqb_spec (enqueued s) 0) as [|Hne];
        [discriminate|].
      inversion Ht. unfold enqueued in *. repeat split; try assumption. lia.
    + (* one more job is put *)
      intros H. inversion H. clear H.
      set (job := make_job (source cfg) (target cfg) name).
      cbn [map snd enumerate] in Hit. injection Hit as Hn Hrest.
      destruct HI as [Hfifo Hacks Hcnt Hhand Hout Hres Hprod _ Hfeed].
      constructor;
        cbn [history jobs procs results feeding items unfinished put];
        history_snoc; try assumption.
      * rewrite Hfifo, app_assoc. reflexivity.
      * rewrite length_app. simpl. lia.
      * unfold coordinator_inv, enqueued in *.
        cbn [coordinator history]. history_snoc.
        rewrite length_app. cbn [List.length].
        replace (Z.of_nat (List.length (puts (history s)) + 1))
          with (Z.of_nat (List.length (puts (history s))) + 1) by lia.
        repeat split; try assumption.
        destruct (Z.eqb_spec (Z.of_nat (List.length (puts (history s))) + 1) 0);
          [lia|congruence].
  - (* join *)
    destruct Hco as (Hn & Hpos & Hdr).
    unfold join_ready. destruct (Nat.eqb_spec (unfinished (jobs s)) 0) as [Hz|];
      [|discriminate].
    intros H. inversion H. apply inv_set_coordinator; [assumption|].
    unfold coordinator_inv, enqueued in *.
    cbn [set_coordinator coordinator history jobs]. rewrite Hdr.
    repeat split; try assumption; try reflexivity. intros _. exact Hz.
  - (* the while loop *)
    destruct Hco as (Hn & Hpos & Hcp & Hsc & Hfin).
    destruct (results s) as [|result rest] eqn:Hrs; intros H; inversion H;
      clear H.
    + apply inv_set_coordinator; [assumption|].
      unfold coordinator_inv, enqueued in *.
      cbn [set_coordinator coordinator history jobs results
           todo sum_copied sum_scaled canceled].
      repeat split; try assumption; auto.
    + destruct HI as [Hfifo Hacks Hcnt Hhand Hout Hres Hprod _ Hfeed].
      constructor; cbn [history jobs procs results feeding items unfinished];
        history_snoc; try assumption.
      * rewrite Hres, Hrs, <- app_assoc. reflexivity.
      * unfold coordinator_inv, enqueued in *.
        cbn [coordinator history jobs]. history_snoc.
        rewrite !total_app. unfold total at 2 4. cbn [fold_right].
        repeat split; try assumption; lia.
Qed.

(** What [take_first] takes was in the buffer, and the rest stays. *)
Lemma take_first_perm w l r rest :
  take_first w l = Some (r, rest) ->
  Permutation (map snd l) (r :: map snd rest).
Proof.
  revert r rest. induction l as [|[v x] l IH]; intros r rest; simpl;
    [discriminate|].
  destruct (Nat.eqb v w).
  - intros H. inversion H. apply Permutation_refl.
  - destruct (take_first w l) as [[r' rest']|]; [|discriminate].
    intros H. inversion H. subst r rest. simpl.
    rewrite (IH r' rest' eq_refl). apply perm_swap.
Qed.

Lemma inv_feeder_step w s s' :
  Inv s -> feeder_step w s = Some s' -> Inv s'.
Proof.
  intros HI. pose proof (inv_coordinator s HI) as Hco'.
  unfold feeder_step.
  destruct (take_first w (feeding s)) as [[r rest]|] eqn:Htake;
    [|discriminate].
  intros H. inversion H. clear H.
  pose proof (take_first_perm _ _ _ _ Htake) as Hperm.
  destruct HI as [Hfifo Hacks Hcnt Hhand Hout Hres Hprod Hco Hfeed].
  constructor; cbn [history jobs procs results feeding items unfinished];
    history_snoc; try assumption.
  - rewrite Hres, <- app_assoc. reflexivity.
  - unfold coordinator_inv, enqueued in *.
    cbn [coordinator history jobs]. history_snoc. assumption.
  - rewrite Hfeed, Hperm, <- app_assoc. reflexivity.
Qed.

Lemma inv_interrupt_step s s' :
  Inv s -> interrupt_step s = Some s' -> Inv s'.
Proof.
  intros HI. pose proof (inv_coordinator s HI) as Hco.
  unfold interrupt_step. unfold coordinator_inv in Hco.
  destruct (coordinator s) as [|it t|n|n c cp sc|summary|e] eqn:Hpc;
    try discriminate; intros H; inversion H; clear H;
    try (apply inv_set_coordinator; [assumption|exact I]).
  destruct Hco as (Hn & Hpos & Hdr).
  destruct HI as [Hfifo Hacks Hcnt Hhand Hout Hres Hprod _ Hfeed].
  constructor; cbn [history jobs procs results feeding items unfinished];
    history_snoc; try assumption.
  unfold coordinator_inv, enqueued in *.
  cbn [coordinator history jobs]. history_snoc. rewrite Hdr.
  repeat split; try assumption; try reflexivity. discriminate.
Qed.

Lemma inv_step cfg a s s' : Inv s -> step cfg a s = Some s' -> Inv s'.
Proof.
  destruct a as [|w| |w]; simpl.
  - apply inv_scale_step.
  - apply inv_worker_step.
  - apply inv_interrupt_step.
  - apply inv_feeder_step.
Qed.

Lemma inv_run cfg sched s s' : Inv s -> run cfg sched s = Some s' -> Inv s'.
Proof.
  revert s. induction sched as [|a sched IH]; intros s HI; simpl.
  - intros H. inversion H. subst. assumption.
  - destruct (step cfg a s) as [s1|] eqn:Hs; [|discriminate].
    apply IH. apply (inv_step cfg a s); assumption.
Qed.

(** Every state of every schedule satisfies the invariant. *)
Lemma inv_reachable cfg log w sched s :
  run cfg sched (initial cfg log w) = Some s -> Inv s.
Proof. apply inv_run, inv_initial. Qed.

(** *** Counting *)

Lemma inv_lengths s :
  Inv s ->
  (List.length (drained (history s)) <= List.length (produced (history s))
   /\ List.length (produced (history s)) <= List.length (handled (history s))
   /\ List.length (handled (history s)) <= List.length (gets (history s))
   /\ List.length (gets (history s)) <= List.length (puts (history s)))%nat.
Proof.
  intros [Hfifo Hacks Hcnt Hhand Hout Hres Hprod Hco Hfeed].
  pose proof (Permutation_length Hhand) as Hl. rewrite length_app in Hl.
  pose proof (Permutation_length Hfeed) as Hf.
  rewrite Hres, !length_app, length_map in Hf.
  rewrite Hfifo, !length_app, length_map. lia.
Qed.

(** Every Result that was put is in exactly one place: with a feeder
    thread, in the pipe of the queue, or drained. *)
Lemma inv_whereabouts s :
  Inv s ->
  Permutation (produced (history s))
    (drained (history s) ++ results s ++ map snd (feeding s)).
Proof.
  intros HI. rewrite (inv_feeding s HI), (inv_results s HI), <- app_assoc.
  reflexivity.
Qed.

Lemma inv_arrived_good s :
  Inv s -> Forall one_of_copied_scaled (arrived (history s)).
Proof.
  intros HI. pose proof (inv_produced s HI) as Hp.
  apply (Permutation_Forall (inv_feeding s HI)) in Hp.
  apply Forall_app in Hp. apply Hp.
Qed.

Lemma inv_drained_good s :
  Inv s -> Forall one_of_copied_scaled (drained (history s)).
Proof.
  intros HI. pose proof (inv_arrived_good s HI) as Hp.
  rewrite (inv_results s HI) in Hp. apply Forall_app in Hp. apply Hp.
Qed.

(** Once the counter of the queue is zero nothing is queued or held:
    every job that was put has been handled and acknowledged. *)
Lemma inv_all_done s :
  Inv s -> unfinished (jobs s) = O ->
  Permutation (puts (history s)) (map snd (acks (history s))) /\
  Permutation (puts (history s)) (map snd (handled (history s))).
Proof.
  intros [Hfifo Hacks Hcnt Hhand Hout Hres Hprod Hco Hfeed] Hz.
  assert (Hi : items (jobs s) = []).
  { destruct (items (jobs s)); [reflexivity|simpl in Hcnt; lia]. }
  assert (Hh : holding (procs s) = []).
  { destruct (holding (procs s)); [reflexivity|].
    rewrite Hi in Hcnt. simpl in Hcnt. lia. }
  assert (Hr : running (procs s) = []).
  { pose proof (running_le_holding 0 (procs s)) as Hle.
    fold (running (procs s)) in Hle. fold (holding (procs s)) in Hle.
    rewrite Hh in Hle. destruct (running (procs s)); [reflexivity|].
    simpl in Hle. lia. }
  rewrite Hh, app_nil_r in Hacks. rewrite Hr, app_nil_r in Hhand.
  rewrite Hfifo, Hi, app_nil_r.
  split; apply Permutation_map; assumption.
Qed.

(** X16: the Summary that [scale] returns has [todo] equal to the
    number of jobs put, [copied] and [scaled] the sums over the drained
    Results, and [skipped = todo - (copied + scaled)], as [summarize]
    computes it, is not negative: it is the number of jobs without a
    drained Result.
    When the batch was not canceled every job was handled, and
    [skipped] is the number of jobs whose processing raised plus the
    number of Results that were put and had not reached the queue when
    the loop found it empty: those are with a feeder thread or have
    arrived since. *)
Theorem summary_counts_drained_results :
  forall (cfg : Config) (log : list (string * bool)) (w : world)
         (sched : list action) (s : State) (summary : Summary),
    run cfg sched (initial cfg log w) = Some s ->
    coordinator s = SReturn summary ->
    let h := history s in
    let skipped := difference summary in
    todo summary = sum_copied summary + sum_scaled summary + skipped /\
    0 <= skipped /\
    todo summary = Z.of_nat (List.length (puts h)) /\
    sum_copied summary = total copied (drained h) /\
    sum_scaled summary = total scaled (drained h) /\
    skipped = Z.of_nat (List.length (puts h))
              - Z.of_nat (List.length (drained h)) /\
    (canceled summary = false ->
       Permutation (puts h) (map snd (handled h)) /\
       Permutation (produced h)
         (drained h ++ results s ++ map snd (feeding s)) /\
       skipped = Z.of_nat (List.length (failed h))
                 + Z.of_nat (List.length (results s))
                 + Z.of_nat (List.length (feeding s))).
Proof.
  intros cfg log w sched s summary Hrun Hpc h skipped. subst h skipped.
  pose proof (inv_reachable _ _ _ _ _ Hrun) as HI.
  pose proof (inv_lengths s HI) as (L1 & L2 & L3 & L4).
  pose proof (inv_coordinator s HI) as Hco.
  unfold coordinator_inv in Hco. rewrite Hpc in Hco.
  destruct Hco as (Htodo & Hpos & Hcp & Hsc & Hfin).
  pose proof (inv_drained_good s HI) as Hgood.
  destruct (total_copied_scaled _ Hgood) as (Hsum & Hc0 & Hs0).
  unfold difference, enqueued in *.
  repeat (split; [lia|]).
  intros Hnc. specialize (Hfin Hnc).
  split; [|split].
  - apply (inv_all_done s HI Hfin).
  - apply inv_whereabouts. assumption.
  - destruct (inv_all_done s HI Hfin) as [_ Hperm].
    apply Permutation_length in Hperm. rewrite length_map in Hperm.
    pose proof (inv_outcomes s HI) as Hout.
    pose proof (Permutation_length (inv_whereabouts s HI)) as Hw.
    rewrite !length_app, length_map in Hw. lia.
Qed.

(** *** One iteration of a worker *)

(** The inner [try] leaves the worker in the [finally], whatever
    [scale_one] does, and touches neither the job queue, the
    acknowledgements, the coordinator nor the other workers. *)
Lemma worker_try_frame cfg i job s p :
  nth_error (procs s) i = Some p ->
  exists pending,
    nth_error (procs (worker_try cfg i job s)) i
    = Some (WFinally job pending) /\
    jobs (worker_try cfg i job s) = jobs s /\
    acks (history (worker_try cfg i job s)) = acks (history s) /\
    coordinator (worker_try cfg i job s) = coordinator s /\
    (forall k, k <> i ->
       nth_error (procs (worker_try cfg i job s)) k = nth_error (procs s) k).
Proof.
  intros Hp. unfold worker_try.
  destruct (scale_one _ _ _ _ _) as [[result|[msg|cls]] fs'];
    eexists; cbn [procs jobs history coordinator]; history_snoc;
    (split; [eapply nth_error_update_same; eassumption|]);
    repeat split; try reflexivity;
    intros k Hk; apply nth_error_update_other; congruence.
Qed.

(** The [finally] acknowledges the job, once, and the worker lets go of
    it: the loop goes on, or the pending exception ends the process. *)
Lemma worker_finally_acknowledges i job pending s :
  Inv s -> nth_error (procs s) i = Some (WFinally job pending) ->
  let s' := worker_finally i job pending s in
  acks (history s') = acks (history s) ++ [(i, job)] /\
  S (unfinished (jobs s')) = unfinished (jobs s) /\
  items (jobs s') = items (jobs s) /\
  nth_error (procs s') i
  = Some (match pending with Some e => WExit e | None => WGet end) /\
  results s' = results s /\ reported s' = reported s /\
  coordinator s' = coordinator s /\
  (forall k, k <> i -> nth_error (procs s') k = nth_error (procs s) k).
Proof.
  intros HI Hp s'. subst s'.
  assert (Hu : unfinished (jobs s) <> O)
    by (apply (held_unfinished s i _ job HI Hp); reflexivity).
  unfold worker_finally, task_done.
  destruct (unfinished (jobs s)) as [|n]; [contradiction|].
  cbn [procs jobs history coordinator results reported items unfinished].
  history_snoc.
  repeat split; try reflexivity.
  - eapply nth_error_update_same; eassumption.
  - intros k Hk. apply nth_error_update_other. congruence.
Qed.

(** *** Progress of the workers *)

Lemma collect_In_inv f k ps x :
  In x (collect f k ps) ->
  exists i p, nth_error ps i = Some p /\ In (snd x) (f p).
Proof.
  revert k. induction ps as [|a ps IH]; intros k Hin; simpl in Hin;
    [contradiction|].
  apply in_app_or in Hin. destruct Hin as [Hin|Hin].
  - apply in_map_iff in Hin. destruct Hin as (j & Hx & Hj).
    exists O, a. subst x. split; [reflexivity|assumption].
  - destruct (IH _ Hin) as (i & p & Hp & Hj). exists (S i), p. auto.
Qed.

Lemma weight_update ps i p0 p :
  nth_error ps i = Some p0 ->
  (list_sum (map weight (update i p ps)) + weight p0
   = list_sum (map weight ps) + weight p)%nat.
Proof.
  revert i. induction ps as [|a ps IH]; intros [|i] H; simpl in H;
    try discriminate.
  - inversion H; subst a. simpl. lia.
  - simpl. specialize (IH i H). lia.
Qed.

(** Each action of a worker is one of the [work_left]. *)
Lemma worker_step_work cfg i s s' :
  worker_step cfg i s = Some s' -> S (work_left s') = work_left s.
Proof.
  unfold worker_step, work_left.
  destruct (nth_error (procs s) i) as [[|job|job pending|e]|] eqn:Hp;
    try discriminate.
  - unfold get. destruct (items (jobs s)) as [|job rest]; [discriminate|].
    intros H. inversion H. cbn [jobs items procs].
    pose proof (weight_update _ i _ (WRun job) Hp) as Hw.
    cbn [weight List.length] in *. lia.
  - intros H. inversion H. unfold worker_try.
    destruct (scale_one _ _ _ _ _) as [[result|[msg|cls]] fs'];
      cbn [jobs items procs];
      match goal with
      | |- context [update i (WFinally job ?pend) _] =>
          pose proof (weight_update _ i _ (WFinally job pend) Hp) as Hw
      end; cbn [weight] in *; lia.
  - intros H. inversion H. unfold worker_finally, task_done.
    destruct (unfinished (jobs s)); cbn [jobs items procs];
      match goal with
      | |- context [update i ?q _] =>
          pose proof (weight_update _ i _ q Hp) as Hw
      end; destruct pending; cbn [weight] in *; lia.
Qed.

Lemma workers_bounded cfg ws :
  forall s s',
    run cfg (map Worker ws) s = Some s' ->
    (List.length ws + work_left s' = work_left s)%nat.
Proof.
  induction ws as [|i ws IH]; intros s s' Hrun; simpl in Hrun.
  - inversion Hrun. reflexivity.
  - destruct (worker_step cfg i s) as [s1|] eqn:Hs; [|discriminate].
    apply worker_step_work in Hs. specialize (IH s1 s' Hrun).
    simpl. lia.
Qed.

(** While the counter of the queue is not zero, a worker that has not
    been ended by an exception keeps some worker able to act. *)
Lemma worker_progress cfg s i p :
  Inv s -> unfinished (jobs s) <> O ->
  nth_error (procs s) i = Some p -> (forall e, p <> WExit e) ->
  exists k s', step cfg (Worker k) s = Some s'.
Proof.
  intros HI Hu Hp Halive. simpl. unfold worker_step.
  destruct p as [|job|job pending|e].
  - destruct (items (jobs s)) as [|job rest] eqn:Hit.
    + pose proof (inv_counter s HI) as Hcnt. rewrite Hit in Hcnt.
      destruct (holding (procs s)) as [|x l] eqn:Hh;
        [simpl in Hcnt; contradiction|].
      assert (Hin : In x (collect held 0 (procs s)))
        by (fold (holding (procs s)); rewrite Hh; left; reflexivity).
      destruct (collect_In_inv _ _ _ _ Hin) as (k & q & Hq & Hj).
      exists k. rewrite Hq.
      destruct q as [|job|job pending|e]; try contradiction; eauto.
    + exists i. rewrite Hp. unfold get. rewrite Hit. eauto.
  - exists i. rewrite Hp. eauto.
  - exists i. rewrite Hp. eauto.
  - exfalso. apply (Halive e). reflexivity.
Qed.

(** C2: every job that was put is still queued or was taken by one
    worker; every job taken is still held by the worker that took it or
    was acknowledged by that worker, once; the counter of the queue
    counts the jobs queued or held, so [task_done] never raises.  A
    worker that holds a job acknowledges it on its next one or two
    actions whatever [scale_one] does.  While jobs are unacknowledged
    and a worker is left, some worker can act, and the workers can take
    only [work_left] actions in all: [join()] is not left waiting by a
    job that fails.  Once it has returned, every job that was put has
    been acknowledged exactly once. *)
Theorem every_job_acknowledged_once :
  forall (cfg : Config) (log : list (string * bool)) (w : world)
         (sched : list action) (s : State),
    run cfg sched (initial cfg log w) = Some s ->
    let h := history s in
    puts h = map snd (gets h) ++ items (jobs s) /\
    Permutation (gets h) (acks h ++ holding (procs s)) /\
    unfinished (jobs s)
    = (List.length (items (jobs s)) + List.length (holding (procs s)))%nat /\
    (forall i job,
        nth_error (procs s) i = Some (WRun job) ->
        exists s1 pending,
          step cfg (Worker i) s = Some s1 /\
          nth_error (procs s1) i = Some (WFinally job pending) /\
          acks (history s1) = acks h) /\
    (forall i job pending,
        nth_error (procs s) i = Some (WFinally job pending) ->
        exists s2,
          step cfg (Worker i) s = Some s2 /\
          acks (history s2) = acks h ++ [(i, job)] /\
          S (unfinished (jobs s2)) = unfinished (jobs s) /\
          nth_error (procs s2) i
          = Some (match pending with Some e => WExit e | None => WGet end)) /\
    (unfinished (jobs s) <> O ->
     (exists i p, nth_error (procs s) i = Some p /\ forall e, p <> WExit e) ->
     exists k s', step cfg (Worker k) s = Some s') /\
    (forall ws s',
        run cfg (map Worker ws) s = Some s' ->
        (List.length ws <= work_left s)%nat) /\
    (join_returned s -> Permutation (puts h) (map snd (acks h))).
Proof.
  intros cfg log w sched s Hrun h. subst h.
  pose proof (inv_reachable _ _ _ _ _ Hrun) as HI.
  split; [apply (inv_fifo s HI)|].
  split; [apply (inv_acks s HI)|].
  split; [apply (inv_counter s HI)|].
  split.
  { intros i job Hp.
    destruct (worker_try_frame cfg i job s _ Hp)
      as (pending & H1 & _ & H2 & _).
    exists (worker_try cfg i job s), pending.
    split; [|split; assumption].
    simpl. unfold worker_step. rewrite Hp. reflexivity. }
  split.
  { intros i job pending Hp.
    destruct (worker_finally_acknowledges i job pending s HI Hp)
      as (H1 & H2 & _ & H3 & _).
    exists (worker_finally i job pending s).
    split; [|repeat split; assumption].
    simpl. unfold worker_step. rewrite Hp. reflexivity. }
  split.
  { intros Hu (i & p & Hp & Halive).
    apply (worker_progress cfg s i p); assumption. }
  split.
  { intros ws s' Hws. pose proof (workers_bounded cfg ws s s' Hws). lia. }
  intros Hj. apply (inv_all_done s HI).
  pose proof (inv_coordinator s HI) as Hco.
  unfold join_returned in Hj. unfold coordinator_inv in Hco.
  destruct (coordinator s) as [|it t|n|n [|] cp sc|summary|e];
    try contradiction.
  - apply Hco. reflexivity.
  - apply Hco. assumption.
Qed.

(** C3: when [scale_one] raises [Image.Error] for the job a worker has
    taken, the worker's next action reports the message as an error line
    and puts no Result; nothing is left pending, so its action after
    that acknowledges the job and leaves the worker at [jobs.get()]
    again.  The coordinator and the other workers are not affected. *)
Theorem image_error_is_reported_and_acknowledged :
  forall (cfg : Config) (log : list (string * bool)) (w : world)
         (sched : list action) (s : State) (i : nat) (job : Job)
         (msg : string) (fs' : world),
    run cfg sched (initial cfg log w) = Some s ->
    nth_error (procs s) i = Some (WRun job) ->
    scale_one (size cfg) (smooth cfg) (fst job) (snd job) (fs s)
    = (Raise (Image_Error msg), fs') ->
    exists s1 s2,
      step cfg (Worker i) s = Some s1 /\
      step cfg (Worker i) s1 = Some s2 /\
      reported s1 = reported s ++ [(msg, true)] /\
      reported s2 = reported s1 /\
      results s1 = results s /\ results s2 = results s /\
      produced (history s2) = produced (history s) /\
      nth_error (procs s1) i = Some (WFinally job None) /\
      acks (history s2) = acks (history s) ++ [(i, job)] /\
      S (unfinished (jobs s2)) = unfinished (jobs s) /\
      items (jobs s2) = items (jobs s) /\
      nth_error (procs s2) i = Some WGet /\
      coordinator s2 = coordinator s /\
      (forall k, k <> i -> nth_error (procs s2) k = nth_error (procs s) k).
Proof.
  intros cfg log w sched s i job msg fs' Hrun Hp Hone.
  pose proof (inv_reachable _ _ _ _ _ Hrun) as HI.
  pose proof (inv_try cfg i job s HI Hp) as HI1.
  destruct (worker_try_frame cfg i job s _ Hp)
    as (pending & Hp1 & Hj1 & Ha1 & Hc1 & Ho1).
  assert (E1 : worker_try cfg i job s
               = mkState (jobs s) (results s) (reported s ++ [(msg, true)])
                   fs' (coordinator s)
                   (update i (WFinally job None) (procs s))
                   (history s ++ [EvError i job (Image_Error msg)])
                   (feeding s)).
  { unfold worker_try. rewrite Hone. reflexivity. }
  assert (Hp1' : nth_error (procs (worker_try cfg i job s)) i
                 = Some (WFinally job None)).
  { rewrite E1. cbn [procs]. eapply nth_error_update_same; eassumption. }
  destruct (worker_finally_acknowledges i job None _ HI1 Hp1')
    as (A1 & A2 & A3 & A4 & A5 & A6 & A7 & A8).
  exists (worker_try cfg i job s),
         (worker_finally i job None (worker_try cfg i job s)).
  split; [simpl; unfold worker_step; rewrite Hp; reflexivity|].
  split; [simpl; unfold worker_step; rewrite Hp1'; reflexivity|].
  split; [rewrite E1; reflexivity|].
  split; [assumption|].
  split; [rewrite E1; reflexivity|].
  split; [rewrite A5, E1; reflexivity|].
  split.
  { unfold worker_finally, task_done.
    destruct (unfinished (jobs (worker_try cfg i job s)));
      cbn [history]; history_snoc; rewrite E1; cbn [history]; history_snoc;
      reflexivity. }
  split; [assumption|].
  split; [rewrite A1, Ha1; reflexivity|].
  split; [rewrite A2, Hj1; reflexivity|].
  split; [rewrite A3, Hj1; reflexivity|].
  split; [assumption|].
  split; [rewrite A7, Hc1; reflexivity|].
  intros k Hk. rewrite (A8 k Hk). apply Ho1. assumption.
Qed.

(** *** Cancellation *)


(** A worker only adds to the Results produced; none of them reaches
    or leaves the queue by what the worker does. *)
Lemma worker_step_produces cfg i s s' :
  worker_step cfg i s = Some s' ->
  coordinator s' = coordinator s /\
  drained (history s') = drained (history s) /\
  arrived (history s') = arrived (history s) /\
  exists more, produced (history s') = produced (history s) ++ more.
Proof.
  unfold worker_step.
  destruct (nth_error (procs s) i) as [[|job|job pending|e]|];
    try discriminate.
  - unfold get. destruct (items (jobs s)); [discriminate|].
    intros H. inversion H. cbn [coordinator history]. history_snoc.
    repeat split. exists []. rewrite app_nil_r. reflexivity.
  - intros H. inversion H. unfold worker_try.
    destruct (scale_one _ _ _ _ _) as [[result|[msg|cls]] fs'];
      cbn [coordinator history]; history_snoc; repeat split;
      eexists; try reflexivity; rewrite app_nil_r; reflexivity.
  - intros H. inversion H. unfold worker_finally.
    destruct (task_done (jobs s)); cbn [coordinator history]; history_snoc;
      repeat split; exists []; rewrite app_nil_r; reflexivity.
Qed.




(** *** add_jobs *)

Lemma add_jobs_loop_enumerate source target names :
  forall k t jobs,
    names <> [] ->
    add_jobs_loop source target (enumerate names k) t jobs
    = (Ok (k + Z.of_nat (List.length names) - 1),
       mkQueue (items jobs ++ map (make_job source target) names)
         (unfinished jobs + List.length names)).
Proof.
  induction names as [|name rest IH]; intros k t jobs Hne; [congruence|].
  cbn [enumerate add_jobs_loop]. destruct rest as [|name' rest].
  - cbn [enumerate add_jobs_loop put map List.length].
    replace (k + Z.of_nat 1 - 1) with k by lia.
    replace (unfinished jobs + 1)%nat with (S (unfinished jobs)) by lia.
    reflexivity.
  - rewrite IH by discriminate.
    cbn [put items unfinished map]. rewrite <- app_assoc.
    change (List.length (name :: name' :: rest))
      with (S (List.length (name' :: rest))).
    replace (k + 1 + Z.of_nat (List.length (name' :: rest)) - 1)
      with (k + Z.of_nat (S (List.length (name' :: rest))) - 1) by lia.
    replace (S (unfinished jobs) + List.length (name' :: rest))%nat
      with (unfinished jobs + S (List.length (name' :: rest)))%nat by lia.
    reflexivity.
Qed.

(** X1: on a directory that has entries [add_jobs] puts one job for
    each entry behind the jobs already in the queue, in the order of the
    listing, raises the counter of the queue by their number and returns
    that number. *)
Lemma add_jobs_nonempty source target jobs fs names :
  os_listdir source fs = Ok names -> names <> [] ->
  add_jobs source target jobs fs
  = (Ok (Z.of_nat (List.length names)),
     mkQueue (items jobs ++ map (make_job source target) names)
       (unfinished jobs + List.length names)).
Proof.
  intros Hls Hne. unfold add_jobs. rewrite Hls.
  rewrite add_jobs_loop_enumerate by assumption.
  f_equal. f_equal. lia.
Qed.

(** The coordinator, run without interference from [SStart], does what
    [add_jobs] does: one action to list the directory, one for each
    entry, one for [return todo]. *)
Lemma add_jobs_loop_alone cfg it :
  forall t s,
    coordinator s = SAddJobs it t ->
    exists s',
      run cfg (repeat Coordinator (S (List.length it))) s = Some s' /\
      jobs s'
      = snd (add_jobs_loop (source cfg) (target cfg) it t (jobs s)) /\
      coordinator s'
      = match fst (add_jobs_loop (source cfg) (target cfg) it t (jobs s)) with
        | Ok n => SJoin n
        | Raise e => SRaise e
        end.
Proof.
  induction it as [|[n name] rest IH]; intros t s Hpc.
  - cbn [List.length repeat run step]. unfold scale_step. rewrite Hpc.
    destruct t as [n|]; eexists; split; try reflexivity; auto.
  - set (s1 := mkState (put (make_job (source cfg) (target cfg) name) (jobs s))
                 (results s) (reported s) (fs s) (SAddJobs rest (Some n))
                 (procs s)
                 (history s
                    ++ [EvPut (make_job (source cfg) (target cfg) name)])
                 (feeding s)).
    destruct (IH (Some n) s1 eq_refl) as (s' & Hrun & Hj & Hc).
    exists s'.
    change (repeat Coordinator (S (List.length ((n, name) :: rest))))
      with (Coordinator :: repeat Coordinator (S (List.length rest))).
    cbn [run step]. unfold scale_step at 1. rewrite Hpc. fold s1.
    split; [exact Hrun|]. split; assumption.
Qed.

Lemma add_jobs_alone cfg s names :
  coordinator s = SStart ->
  os_listdir (source cfg) (fs s) = Ok names ->
  exists s',
    run cfg (repeat Coordinator (S (S (List.length names)))) s = Some s' /\
    jobs s' = snd (add_jobs (source cfg) (target cfg) (jobs s) (fs s)) /\
    coordinator s'
    = match fst (add_jobs (source cfg) (target cfg) (jobs s) (fs s)) with
      | Ok n => SJoin n
      | Raise e => SRaise e
      end.
Proof.
  intros Hpc Hls.
  set (s1 := set_coordinator (SAddJobs (enumerate names 1) None) s).
  destruct (add_jobs_loop_alone cfg (enumerate names 1) None s1 eq_refl)
    as (s' & Hrun & Hj & Hc).
  assert (Hlen : List.length (enumerate names 1) = List.length names).
  { rewrite <- (map_snd_enumerate names 1) at 2. rewrite length_map.
    reflexivity. }
  rewrite Hlen in Hrun.
  exists s'.
  change (repeat Coordinator (S (S (List.length names))))
    with (Coordinator :: repeat Coordinator (S (List.length names))).
  cbn [run step]. unfold scale_step at 1. rewrite Hpc, Hls. fold s1.
  unfold add_jobs. rewrite Hls.
  split; [exact Hrun|]. split; assumption.
Qed.

(** *** An empty source directory *)

Lemma empty_inv_step cfg w a s s' :
  os_listdir (source cfg) w = Ok [] ->
  empty_inv w s -> step cfg a s = Some s' -> empty_inv w s'.
Proof.
  intros Hls (Hfs & Hit & Hputs & Hall & Hpc) Hstep. unfold empty_inv.
  destruct a as [|i| |i]; simpl in Hstep.
  - unfold scale_step in Hstep.
    destruct (coordinator s) as [|[|] [|]|n|n c cp sc|summary|e];
      try contradiction; try discriminate.
    + rewrite Hfs, Hls in Hstep. inversion Hstep.
      cbn [set_coordinator fs jobs procs coordinator history enumerate].
      auto.
    + inversion Hstep.
      cbn [set_coordinator fs jobs procs coordinator history]. auto.
  - unfold worker_step in Hstep.
    destruct (nth_error (procs s) i) as [p|] eqn:Hp; [|discriminate].
    apply nth_error_In in Hp. rewrite Forall_forall in Hall.
    rewrite (Hall p Hp) in Hstep. unfold get in Hstep. rewrite Hit in Hstep.
    discriminate.
  - unfold interrupt_step in Hstep.
    destruct (coordinator s) as [|[|] [|]|n|n c cp sc|summary|e];
      try contradiction; try discriminate;
      inversion Hstep;
      cbn [set_coordinator fs jobs procs coordinator history]; auto.
  - unfold feeder_step in Hstep.
    destruct (take_first i (feeding s)) as [[r rest]|]; [|discriminate].
    inversion Hstep. cbn [fs jobs procs coordinator history]. history_snoc.
    auto.
Qed.

Lemma empty_inv_run cfg w sched :
  forall s s',
    os_listdir (source cfg) w = Ok [] ->
    empty_inv w s -> run cfg sched s = Some s' -> empty_inv w s'.
Proof.
  induction sched as [|a sched IH]; intros s s' Hls HE Hrun; simpl in Hrun.
  - inversion Hrun. subst. assumption.
  - destruct (step cfg a s) as [s1|] eqn:Hs; [|discriminate].
    apply (IH s1 s' Hls); [|assumption].
    apply (empty_inv_step cfg w a s); assumption.
Qed.

(** C10: when the source directory has no entries the loop of
    [add_jobs] never binds [todo], and [return todo] raises
    UnboundLocalError instead of returning 0.  In the batch the
    coordinator raises it on its second action, before [jobs.join()]:
    in no schedule does it reach [join()] or return a Summary. *)
Theorem empty_directory_raises_unbound_local :
  forall (cfg : Config) (log : list (string * bool)) (w : world),
    os_listdir (source cfg) w = Ok [] ->
    (forall jobs,
        add_jobs (source cfg) (target cfg) jobs w
        = (Raise UnboundLocalError, jobs)) /\
    (exists s2,
        run cfg [Coordinator; Coordinator] (initial cfg log w) = Some s2 /\
        coordinator s2 = SRaise UnboundLocalError /\
        puts (history s2) = []) /\
    (forall sched s,
        run cfg sched (initial cfg log w) = Some s ->
        puts (history s) = [] /\
        (forall n, coordinator s <> SJoin n) /\
        (forall n c cp sc, coordinator s <> SDrain n c cp sc) /\
        (forall summary, coordinator s <> SReturn summary)).
Proof.
  intros cfg log w Hls. split; [|split].
  - intros jobs. unfold add_jobs. rewrite Hls. reflexivity.
  - eexists. cbn [run step]. unfold scale_step at 1.
    cbn [initial coordinator fs]. rewrite Hls.
    cbn [enumerate set_coordinator coordinator]. unfold scale_step.
    cbn [coordinator set_coordinator]. split; [reflexivity|].
    split; reflexivity.
  - intros sched s Hrun.
    assert (HE0 : empty_inv w (initial cfg log w)).
    { unfold empty_inv, initial, create_processes.
      cbn [fs jobs items empty_queue procs coordinator history].
      repeat split. apply Forall_forall. intros p Hp.
      apply repeat_spec in Hp. assumption. }
    pose proof (empty_inv_run cfg w sched _ _ Hls HE0 Hrun)
      as (_ & _ & Hputs & _ & Hpc).
    split; [assumption|].
    destruct (coordinator s) as [|[|] [|]|n|n c cp sc|summary|e];
      try contradiction; repeat split; intros; discriminate.
Qed.

(** *** The command line *)

(** C9, as amended: the only check made before the worker pool is
    started is that of [handle_commandline] on the two directories.
    When they are the same the program ends with an exception before
    [scale] is called.  Otherwise, once the target directory exists,
    the batch starts with the concurrency of the command line as it is:
    [create_processes] makes that many workers, none when it is zero or
    negative, and [scale] goes on to [add_jobs]. *)
Theorem only_equal_directories_are_rejected :
  forall (args : Namespace) (fs : world),
    (os_abspath (args_source args) = os_abspath (args_target args) ->
     exists e, main_start args fs = Raise e) /\
    (os_abspath (args_source args) <> os_abspath (args_target args) ->
     forall fs',
       (if os_exists (args_target args) fs then (Ok tt, fs)
        else os_makedirs (os_abspath (args_target args)) fs) = (Ok tt, fs') ->
       let cfg :=
         mkConfig (args_size args) (args_smooth args)
           (os_abspath (args_source args)) (os_abspath (args_target args))
           (args_concurrency args) in
       exists s0,
         main_start args fs = Ok (cfg, s0) /\
         coordinator s0 = SStart /\
         procs s0 = repeat WGet (Z.to_nat (args_concurrency args)) /\
         (args_concurrency args <= 0 -> procs s0 = [])).
Proof.
  intros args fs. split.
  - intros Heq. exists AttributeError.
    unfold main_start, handle_commandline, io_pure.
    apply String.eqb_eq in Heq. rewrite Heq. reflexivity.
  - intros Hne fs' Hdir cfg.
    exists (initial cfg [("starting..."%string, false)] fs').
    unfold main_start, handle_commandline, io_bind, io_ret.
    apply String.eqb_neq in Hne. rewrite Hne, Hdir.
    repeat split.
    intros Hle. unfold initial, create_processes. cbn [procs concurrency cfg].
    replace (Z.to_nat (args_concurrency args)) with O by lia. reflexivity.
Qed.

End Batch.

(** ** Paths, Results and the file system *)

Section Paths.

Context {lib : ImageLibrary}.

Lemma append_assoc (a b c : string) :
  ((a ++ b) ++ c = a ++ (b ++ c))%string.
Proof. induction a as [|x a IH]; simpl; [reflexivity|]. rewrite IH. reflexivity. Qed.

Lemma append_cancel_l (p a b : string) :
  (p ++ a = p ++ b)%string -> a = b.
Proof.
  induction p as [|x p IH]; simpl; intros H; [assumption|].
  inversion H. auto.
Qed.

Lemma is_sep_eq c : is_sep c = true -> c = "/"%char.
Proof. unfold is_sep. apply Ascii.eqb_eq. Qed.

Lemma endswith_sep_split a :
  endswith_sep a = true -> exists a', a = (a' ++ "/")%string.
Proof.
  induction a as [|c a IH]; simpl; [discriminate|].
  destruct a as [|c' a].
  - intros H. apply is_sep_eq in H. subst c. exists ""%string. reflexivity.
  - intros H. destruct (IH H) as [a' E]. exists (String c a').
    simpl. rewrite <- E. reflexivity.
Qed.

Lemma has_sep_startswith n : has_sep n = false -> startswith_sep n = false.
Proof.
  destruct n as [|c n]; simpl; [reflexivity|].
  intros H. apply orb_false_iff in H. apply H.
Qed.

(** What [join] puts in front of a name that does not start with a
    separator depends on the directory only. *)
Lemma join_prefix dir :
  exists pre, forall n, startswith_sep n = false -> join dir n = (pre ++ n)%string.
Proof.
  destruct (String.eqb dir "" || endswith_sep dir)%bool eqn:E.
  - exists dir. intros n Hn. unfold join. rewrite Hn, E. reflexivity.
  - exists (dir ++ "/")%string. intros n Hn. unfold join. rewrite Hn, E.
    rewrite append_assoc. reflexivity.
Qed.

Lemma join_injective dir n1 n2 :
  startswith_sep n1 = false -> startswith_sep n2 = false ->
  join dir n1 = join dir n2 -> n1 = n2.
Proof.
  intros H1 H2. destruct (join_prefix dir) as [pre Hpre].
  rewrite (Hpre n1 H1), (Hpre n2 H2). apply append_cancel_l.
Qed.

(** X3: the jobs of two different entries of a directory read
    different files and write different files: for entries that do not
    start with a separator, as [os.listdir] gives them, the source paths
    of the jobs are distinct and so are the target paths. *)
Theorem distinct_entries_get_distinct_paths :
  forall (source target : string) (names : list string),
    Forall (fun n => startswith_sep n = false) names ->
    NoDup names ->
    NoDup (map fst (map (make_job source target) names)) /\
    NoDup (map snd (map (make_job source target) names)).
Proof.
  intros source target names Hsep Hnd. rewrite Forall_forall in Hsep.
  rewrite !map_map. unfold make_job. cbn [fst snd].
  split; apply NoDup_map_NoDup_ForallPairs; try assumption;
    intros a b Ha Hb; apply join_injective; auto.
Qed.

Lemma basename_from_last_sep acc p n :
  basename_from acc (p ++ String "/" n) = basename_from "" n.
Proof.
  revert acc. induction p as [|c p IH]; intros acc; simpl.
  - reflexivity.
  - destruct (is_sep c); apply IH.
Qed.

Lemma basename_from_no_sep n :
  forall acc, has_sep n = false -> basename_from acc n = (acc ++ n)%string.
Proof.
  induction n as [|c n IH]; intros acc H; simpl in *.
  - induction acc as [|x acc IHa]; simpl; [reflexivity|].
    rewrite <- IHa. reflexivity.
  - apply orb_false_iff in H. destruct H as [Hc Hn]. rewrite Hc.
    rewrite (IH _ Hn), append_assoc. reflexivity.
Qed.

Lemma basename_join dir name :
  has_sep name = false -> basename (join dir name) = name.
Proof.
  intros Hn. pose proof (has_sep_startswith name Hn) as Hs.
  unfold basename, join. rewrite Hs.
  destruct (String.eqb_spec dir "") as [E|_]; simpl orb.
  - subst dir. simpl. apply (basename_from_no_sep name "" Hn).
  - destruct (endswith_sep dir) eqn:Ee.
    + destruct (endswith_sep_split dir Ee) as [a' E]. subst dir.
      rewrite append_assoc. change ("/" ++ name)%string with (String "/" name).
      rewrite basename_from_last_sep. apply (basename_from_no_sep name "" Hn).
    + change ("/" ++ name)%string with (String "/" name).
      rewrite basename_from_last_sep. apply (basename_from_no_sep name "" Hn).
Qed.

(** X4: the progress line of a job names the directory entry: for an
    entry without a separator in it, the base name of the target path
    that [add_jobs] builds is the entry again, so the worker reports
    "copied" or "scaled" followed by that entry. *)
Theorem progress_line_names_entry :
  forall (source target entry : string) (c sc : Z),
    has_sep entry = false ->
    basename (snd (make_job source target entry)) = entry /\
    progress_line (mkResult c sc (snd (make_job source target entry)))
    = ((if Z.eqb c 0 then "scaled" else "copied") ++ " " ++ entry)%string.
Proof.
  intros source target entry c sc Hn. unfold make_job, progress_line.
  cbn [snd copied name]. rewrite (basename_join target entry Hn).
  split; reflexivity.
Qed.

(** X5: a Result that [scale_one] returns is [Result(1, 0, target)]
    exactly when the loaded image fits the size, and
    [Result(0, 1, target)] otherwise: it always names the target path. *)
Theorem scale_one_result_tells_copy_from_scale :
  forall (size : Z) (smooth : bool) (sourceImage targetImage : string)
         (fs fs' : world) (result : Result),
    scale_one size smooth sourceImage targetImage fs = (Ok result, fs') ->
    exists oldImage,
      Image_from_file sourceImage fs = Ok oldImage /\
      result
      = (if ((width oldImage <=? size) && (height oldImage <=? size))%bool
         then mkResult 1 0 targetImage
         else mkResult 0 1 targetImage).
Proof.
  intros size smooth src tgt fs fs' result.
  unfold scale_one, io_bind, io_pure, io_ret.
  destruct (Image_from_file src fs) as [img|e]; [|discriminate].
  intros H. exists img. split; [reflexivity|].
  destruct (_ && _)%bool.
  - destruct (Image_save img tgt fs) as [[u|e] fs1]; [|discriminate].
    inversion H. reflexivity.
  - destruct smooth.
    + destruct (bind _ _) as [new|e]; [|discriminate].
      destruct (Image_save new tgt fs) as [[u|e] fs1]; [|discriminate].
      inversion H. reflexivity.
    + destruct (bind _ _) as [new|e]; [|discriminate].
      destruct (Image_save new tgt fs) as [[u|e] fs1]; [|discriminate].
      inversion H. reflexivity.
Qed.

(** X6: [scale_one] changes the file system by at most one [save], and
    that to the target path.  When it raises before saving (the image
    cannot be loaded, the division or the rescaling fails) the file
    system is as it was; otherwise its outcome and the new file system
    are those of [save]. *)
Theorem scale_one_saves_only_target :
  forall (size : Z) (smooth : bool) (sourceImage targetImage : string)
         (fs fs' : world) (r : res Result),
    scale_one size smooth sourceImage targetImage fs = (r, fs') ->
    (fs' = fs /\ exists e, r = Raise e) \/
    (exists img,
        Image_save img targetImage fs
        = (match r with Ok _ => Ok tt | Raise e => Raise e end, fs')).
Proof.
  intros size smooth src tgt fs fs' r.
  unfold scale_one, io_bind, io_pure, io_ret.
  destruct (Image_from_file src fs) as [img|e].
  - destruct (_ && _)%bool.
    + intros H. right. exists img.
      destruct (Image_save img tgt fs) as [[[]|e] fs1]; inversion H;
        reflexivity.
    + destruct smooth.
      * destruct (bind _ _) as [new|e].
        -- intros H. right. exists new.
           destruct (Image_save new tgt fs) as [[[]|e] fs1]; inversion H;
             reflexivity.
        -- intros H. inversion H. left. eauto.
      * destruct (bind _ _) as [new|e].
        -- intros H. right. exists new.
           destruct (Image_save new tgt fs) as [[[]|e] fs1]; inversion H;
             reflexivity.
        -- intros H. inversion H. left. eauto.
  - intros H. inversion H. left. eauto.
Qed.

(** X7: with size 0 and without [--smooth] every image that has a
    positive width or height makes [scale_one] raise ZeroDivisionError,
    which is not an [Image.Error]; nothing is saved. *)
Theorem scale_one_size_zero_divides_by_zero :
  forall (sourceImage targetImage : string) (fs : world) (oldImage : Image),
    Image_from_file sourceImage fs = Ok oldImage ->
    0 < width oldImage \/ 0 < height oldImage ->
    scale_one 0 false sourceImage targetImage fs
    = (Raise ZeroDivisionError, fs).
Proof.
  intros src tgt fs img Hload Hpos.
  unfold scale_one, io_bind, io_pure, io_ret. rewrite Hload.
  assert (E : ((width img <=? 0) && (height img <=? 0))%bool = false).
  { apply andb_false_iff. destruct Hpos; [left|right]; apply Z.leb_gt; lia. }
  rewrite E. reflexivity.
Qed.

End Paths.

(** ** More on the batch *)

Section Pool.

Context {lib : ImageLibrary}.

Ltac history_snoc :=
  rewrite ?puts_snoc, ?gets_snoc, ?handled_snoc, ?produced_snoc,
    ?failed_snoc, ?acks_snoc, ?drained_snoc, ?arrived_snoc;
  cbn [puts gets handled produced failed acks drained arrived flat_map app];
  rewrite ?app_nil_r.

Lemma length_update {A : Type} (l : list A) i x :
  List.length (update i x l) = List.length l.
Proof.
  revert i. induction l as [|a l IH]; intros [|i]; simpl; auto.
Qed.

Lemma reports_snoc h e : reports (h ++ [e]) = reports h ++ report_of e.
Proof. apply flat_map_snoc. Qed.

Lemma step_reports cfg log a s s' :
  reported s = log ++ reports (history s) ->
  step cfg a s = Some s' ->
  reported s' = log ++ reports (history s').
Proof.
  intros HR. destruct a as [|i| |i]; simpl.
  - unfold scale_step.
    destruct (coordinator s) as [|[|[n name] rest] [t|]|n|n c cp sc|summary|e];
      try discriminate;
      try (intros H; inversion H; cbn [set_coordinator reported history];
           rewrite ?reports_snoc; cbn [report_of]; rewrite ?app_nil_r;
           assumption).
    + destruct (os_listdir (source cfg) (fs s)); intros H; inversion H;
        assumption.
    + destruct (join_ready (jobs s)); [|discriminate].
      intros H; inversion H. assumption.
    + destruct (results s) as [|r rest]; intros H; inversion H;
        cbn [set_coordinator reported history];
        rewrite ?reports_snoc; cbn [report_of]; rewrite ?app_nil_r;
        assumption.
  - unfold worker_step.
    destruct (nth_error (procs s) i) as [[|job|job pending|e]|];
      try discriminate.
    + unfold get. destruct (items (jobs s)); [discriminate|].
      intros H. inversion H. cbn [reported history].
      rewrite reports_snoc. cbn [report_of]. rewrite app_nil_r. assumption.
    + intros H. inversion H. unfold worker_try.
      destruct (scale_one _ _ _ _ _) as [[result|[msg|cls]] fs'];
        cbn [reported history]; rewrite reports_snoc; cbn [report_of];
        rewrite ?app_nil_r, ?HR, ?app_assoc; reflexivity.
    + intros H. inversion H. unfold worker_finally.
      destruct (task_done (jobs s)); cbn [reported history];
        rewrite ?reports_snoc; cbn [report_of]; rewrite ?app_nil_r;
        assumption.
  - unfold interrupt_step.
    destruct (coordinator s) as [|it t|n|n c cp sc|summary|e];
      try discriminate; intros H; inversion H;
      cbn [set_coordinator reported history]; try assumption.
    rewrite reports_snoc. cbn [report_of]. rewrite HR, app_assoc.
    reflexivity.
  - unfold feeder_step.
    destruct (take_first i (feeding s)) as [[r rest]|]; [|discriminate].
    intros H. inversion H. cbn [reported history].
    rewrite reports_snoc. cbn [report_of]. rewrite app_nil_r. assumption.
Qed.

Lemma run_reports cfg log sched :
  forall s s',
    reported s = log ++ reports (history s) ->
    run cfg sched s = Some s' ->
    reported s' = log ++ reports (history s').
Proof.
  induction sched as [|a sched IH]; intros s s' HR Hrun; simpl in Hrun.
  - inversion Hrun. subst. assumption.
  - destruct (step cfg a s) as [s1|] eqn:Hs; [|discriminate].
    apply (IH s1 s'); [|assumption].
    apply (step_reports cfg log a s); assumption.
Qed.

(** X11: what is reported during a batch follows what happens in it,
    in order: after the lines reported before, one progress line for
    each Result put, the message as an error line for each
    [Image.Error] caught, and "canceling..." for the interrupt caught in
    [join()].  Any other exception of [scale_one] is reported by
    nobody. *)
Theorem reported_lines_follow_history :
  forall (cfg : Config) (log : list (string * bool)) (w : world)
         (sched : list action) (s : State),
    run cfg sched (initial cfg log w) = Some s ->
    reported s = log ++ reports (history s).
Proof.
  intros cfg log w sched s Hrun.
  apply (run_reports cfg log sched (initial cfg log w)); [|assumption].
  cbn [initial reported history reports flat_map]. rewrite app_nil_r.
  reflexivity.
Qed.


Lemma nothing_queued_or_held s :
  Inv s -> unfinished (jobs s) = O ->
  items (jobs s) = [] /\
  (forall i p, nth_error (procs s) i = Some p -> held p = []).
Proof.
  intros HI Hz. pose proof (inv_counter s HI) as Hcnt. rewrite Hz in Hcnt.
  split.
  - destruct (items (jobs s)); [reflexivity|simpl in Hcnt; lia].
  - intros i p Hp. destruct (held p) as [|j l] eqn:Hh; [reflexivity|].
    assert (Hl : l = []) by (destruct p; simpl in Hh; congruence).
    subst l. pose proof (holding_nonempty _ _ _ _ Hp Hh). lia.
Qed.

Lemma returned_step cfg a s s' summary :
  Inv s -> coordinator s = SReturn summary -> unfinished (jobs s) = O ->
  step cfg a s = Some s' ->
  (exists v, a = Feeder v) /\
  coordinator s' = coordinator s /\ jobs s' = jobs s /\
  procs s' = procs s /\
  drained (history s') = drained (history s) /\
  produced (history s') = produced (history s).
Proof.
  intros HI Hpc Hz.
  destruct (nothing_queued_or_held s HI Hz) as [Hit Hheld].
  destruct a as [|i| |i]; simpl.
  - unfold scale_step. rewrite Hpc. discriminate.
  - unfold worker_step.
    destruct (nth_error (procs s) i) as [p|] eqn:Hp; [|discriminate].
    pose proof (Hheld i p Hp) as Hh.
    destruct p; try discriminate.
    unfold get. rewrite Hit. discriminate.
  - unfold interrupt_step. rewrite Hpc. discriminate.
  - unfold feeder_step.
    destruct (take_first i (feeding s)) as [[r rest]|]; [|discriminate].
    intros H. inversion H. cbn [coordinator jobs procs history].
    history_snoc. split; [exists i; reflexivity|]. auto.
Qed.

Lemma returned_run cfg summary sched :
  forall s s',
    Inv s -> coordinator s = SReturn summary -> unfinished (jobs s) = O ->
    run cfg sched s = Some s' ->
    coordinator s' = SReturn summary /\ jobs s' = jobs s /\
    procs s' = procs s /\
    drained (history s') = drained (history s) /\
    produced (history s') = produced (history s).
Proof.
  induction sched as [|a sched IH]; intros s s' HI Hpc Hz Hrun;
    simpl in Hrun.
  - inversion Hrun. subst. auto.
  - destruct (step cfg a s) as [s1|] eqn:Hs; [|discriminate].
    destruct (returned_step cfg a s s1 summary HI Hpc Hz Hs)
      as (_ & Hc & Hj & Hp & Hd & Hpr).
    assert (HI1 : Inv s1) by (apply (inv_step cfg a s); assumption).
    assert (Hpc1 : coordinator s1 = SReturn summary) by congruence.
    assert (Hz1 : unfinished (jobs s1) = O) by congruence.
    destruct (IH s1 s' HI1 Hpc1 Hz1 Hrun) as (H1 & H2 & H3 & H4 & H5).
    repeat split; congruence.
Qed.

(** X9: a Summary that is not marked canceled is final: when [scale]
    returns it no job is queued or held, and neither the coordinator
    nor a worker can act any more, nor is an interrupt taken; no
    further Result is put.  Only the feeder threads may still write
    Results that were put before; whatever they write, the Summary
    stays as it is and those Results are never drained. *)
Theorem returned_summary_is_final :
  forall (cfg : Config) (log : list (string * bool)) (w : world)
         (sched : list action) (s : State) (summary : Summary),
    run cfg sched (initial cfg log w) = Some s ->
    coordinator s = SReturn summary ->
    canceled summary = false ->
    items (jobs s) = [] /\ unfinished (jobs s) = O /\
    (forall a s', step cfg a s = Some s' -> exists v, a = Feeder v) /\
    (forall sched' s',
        run cfg sched' s = Some s' ->
        coordinator s' = SReturn summary /\
        jobs s' = jobs s /\ procs s' = procs s /\
        drained (history s') = drained (history s) /\
        produced (history s') = produced (history s)).
Proof.
  intros cfg log w sched s summary Hrun Hpc Hnc.
  pose proof (inv_reachable _ _ _ _ _ Hrun) as HI.
  pose proof (inv_coordinator s HI) as Hco.
  unfold coordinator_inv in Hco. rewrite Hpc in Hco.
  destruct Hco as (_ & _ & _ & _ & Hfin). specialize (Hfin Hnc).
  destruct (nothing_queued_or_held s HI Hfin) as [Hit _].
  split; [assumption|]. split; [assumption|]. split.
  - intros a s' Hs.
    destruct (returned_step cfg a s s' summary HI Hpc Hfin Hs) as [Hv _].
    assumption.
  - intros sched' s'. apply returned_run; assumption.
Qed.

(** X10: Results are drained in the order in which they reach the
    queue, none is lost and none is counted twice: at any time the
    Results that have reached the queue are those already drained
    followed by those still in it, and every Result put is in exactly
    one place, drained, in the queue or with a feeder thread.  Each has
    exactly one of [copied] and [scaled] set, and there are never more
    Results than jobs taken. *)
Theorem results_are_drained_in_order :
  forall (cfg : Config) (log : list (string * bool)) (w : world)
         (sched : list action) (s : State),
    run cfg sched (initial cfg log w) = Some s ->
    arrived (history s) = drained (history s) ++ results s /\
    Permutation (produced (history s))
      (drained (history s) ++ results s ++ map snd (feeding s)) /\
    Forall one_of_copied_scaled (produced (history s)) /\
    (List.length (produced (history s))
     <= List.length (gets (history s)))%nat.
Proof.
  intros cfg log w sched s Hrun.
  pose proof (inv_reachable _ _ _ _ _ Hrun) as HI.
  pose proof (inv_lengths s HI) as (_ & L2 & L3 & _).
  split; [apply (inv_results s HI)|].
  split; [apply (inv_whereabouts s HI)|].
  split; [apply (inv_produced s HI)|lia].
Qed.

Lemma step_pool cfg a s s' :
  step cfg a s = Some s' ->
  List.length (procs s') = List.length (procs s) /\
  (forall i e,
      nth_error (procs s) i = Some (WExit e) ->
      nth_error (procs s') i = Some (WExit e)).
Proof.
  destruct a as [|k| |k]; simpl.
  - unfold scale_step.
    destruct (coordinator s) as [|[|[n name] rest] [t|]|n|n c cp sc|summary|e];
      try discriminate;
      try (intros H; inversion H; cbn [set_coordinator procs]; solve [auto]).
    + destruct (os_listdir (source cfg) (fs s)); intros H; inversion H;
        cbn [set_coordinator procs]; auto.
    + destruct (join_ready (jobs s)); [|discriminate].
      intros H; inversion H. cbn [set_coordinator procs]. auto.
    + destruct (results s) as [|r rest]; intros H; inversion H;
        cbn [set_coordinator procs]; auto.
  - unfold worker_step.
    destruct (nth_error (procs s) k) as [p|] eqn:Hp; [|discriminate].
    assert (Hupd : forall q,
               List.length (update k q (procs s)) = List.length (procs s) /\
               (forall i e,
                   nth_error (procs s) i = Some (WExit e) ->
                   (forall e', p <> WExit e') ->
                   nth_error (update k q (procs s)) i = Some (WExit e))).
    { intros q. split; [apply length_update|].
      intros i e Hi Hne. rewrite nth_error_update_other; [assumption|].
      intros E. subst i. rewrite Hp in Hi. inversion Hi.
      apply (Hne e). assumption. }
    destruct p as [|job|job pending|e0]; try discriminate.
    + unfold get. destruct (items (jobs s)); [discriminate|].
      intros H. inversion H. cbn [procs].
      destruct (Hupd (WRun j)) as [Hl He]. split; [assumption|].
      intros i e Hi. apply He; [assumption|discriminate].
    + intros H. inversion H. unfold worker_try.
      destruct (scale_one _ _ _ _ _) as [[result|[msg|cls]] fs'];
        cbn [procs];
        match goal with
        | |- context [update k ?q _] => destruct (Hupd q) as [Hl He]
        end;
        (split; [assumption|]);
        intros i x Hi; (apply He; [assumption|discriminate]).
    + intros H. inversion H. unfold worker_finally.
      destruct (task_done (jobs s)); cbn [procs];
        match goal with
        | |- context [update k ?q _] => destruct (Hupd q) as [Hl He]
        end;
        (split; [assumption|]);
        intros i x Hi; (apply He; [assumption|discriminate]).
  - unfold interrupt_step.
    destruct (coordinator s) as [|it t|n|n c cp sc|summary|e];
      try discriminate; intros H; inversion H;
      cbn [set_coordinator procs]; auto.
  - unfold feeder_step.
    destruct (take_first k (feeding s)) as [[r rest]|]; [|discriminate].
    intros H. inversion H. cbn [procs]. auto.
Qed.

Lemma run_pool cfg sched :
  forall s s',
    run cfg sched s = Some s' ->
    List.length (procs s') = List.length (procs s) /\
    (forall i e,
        nth_error (procs s) i = Some (WExit e) ->
        nth_error (procs s') i = Some (WExit e)).
Proof.
  induction sched as [|a sched IH]; intros s s' Hrun; simpl in Hrun.
  - inversion Hrun. subst. auto.
  - destruct (step cfg a s) as [s1|] eqn:Hs; [|discriminate].
    destruct (step_pool cfg a s s1 Hs) as [L1 E1].
    destruct (IH s1 s' Hrun) as [L2 E2].
    split; [congruence|]. intros i e Hi. apply E2, E1. assumption.
Qed.

(** X12: the pool is what [create_processes] made of it: throughout
    the batch there are as many worker processes as [range(concurrency)]
    has elements, and a worker that was ended by an exception is never
    replaced or restarted. *)
Theorem pool_is_fixed :
  forall (cfg : Config) (log : list (string * bool)) (w : world)
         (sched sched' : list action) (s s' : State),
    run cfg sched (initial cfg log w) = Some s ->
    run cfg sched' s = Some s' ->
    List.length (procs s') = Z.to_nat (concurrency cfg) /\
    (forall i e,
        nth_error (procs s) i = Some (WExit e) ->
        nth_error (procs s') i = Some (WExit e)).
Proof.
  intros cfg log w sched sched' s s' Hrun Hrun'.
  destruct (run_pool cfg sched _ _ Hrun) as [L1 _].
  destruct (run_pool cfg sched' _ _ Hrun') as [L2 E2].
  split; [|assumption].
  rewrite L2, L1. unfold initial, create_processes. cbn [procs].
  apply repeat_length.
Qed.

Lemma stalled_step cfg a s s' n :
  Inv s -> coordinator s = SJoin n -> all_exited (procs s) ->
  items (jobs s) <> [] -> a <> Interrupt ->
  step cfg a s = Some s' ->
  (exists v, a = Feeder v) /\
  coordinator s' = coordinator s /\ jobs s' = jobs s /\
  procs s' = procs s.
Proof.
  intros HI Hpc Hall Hit Ha.
  destruct a as [|i| |i]; simpl; [| |congruence|].
  - unfold scale_step. rewrite Hpc. unfold join_ready.
    rewrite (inv_counter s HI).
    destruct (items (jobs s)); [congruence|discriminate].
  - unfold worker_step.
    destruct (nth_error (procs s) i) as [p|] eqn:Hp; [|discriminate].
    apply nth_error_In in Hp. unfold all_exited in Hall.
    rewrite Forall_forall in Hall. destruct (Hall p Hp) as [e E].
    subst p. discriminate.
  - unfold feeder_step.
    destruct (take_first i (feeding s)) as [[r rest]|]; [|discriminate].
    intros H. inversion H. cbn [coordinator jobs procs].
    split; [exists i; reflexivity|]. auto.
Qed.

Lemma stalled_run cfg n sched :
  forall s s',
    Inv s -> coordinator s = SJoin n -> all_exited (procs s) ->
    items (jobs s) <> [] -> Forall (fun a => a <> Interrupt) sched ->
    run cfg sched s = Some s' ->
    coordinator s' = SJoin n /\ jobs s' = jobs s /\ procs s' = procs s.
Proof.
  induction sched as [|a sched IH]; intros s s' HI Hpc Hall Hit Hno Hrun;
    simpl in Hrun.
  - inversion Hrun. subst. auto.
  - destruct (step cfg a s) as [s1|] eqn:Hs; [|discriminate].
    inversion Hno as [|? ? Ha Hno']. subst.
    destruct (stalled_step cfg a s s1 n HI Hpc Hall Hit Ha Hs)
      as (_ & Hc & Hj & Hp).
    assert (HI1 : Inv s1) by (apply (inv_step cfg a s); assumption).
    destruct (IH s1 s' HI1) as (H1 & H2 & H3); try congruence;
      try assumption.
    repeat split; congruence.
Qed.

(** X13: when every worker has been ended by an exception while jobs
    are still queued, the coordinator waits in [jobs.join()] and
    neither it nor a worker can act.  The feeder threads may still
    write Results that were put before, which changes nothing for
    [join()]: whatever happens, the coordinator stays in [join()] with
    the same jobs queued until an interrupt ends the wait. *)
Theorem exited_workers_leave_join_waiting :
  forall (cfg : Config) (log : list (string * bool)) (w : world)
         (sched : list action) (s : State) (n : Z),
    run cfg sched (initial cfg log w) = Some s ->
    coordinator s = SJoin n ->
    all_exited (procs s) ->
    items (jobs s) <> [] ->
    (forall a, a <> Interrupt -> (forall v, a <> Feeder v) ->
               step cfg a s = None) /\
    (forall sched' s',
        Forall (fun a => a <> Interrupt) sched' ->
        run cfg sched' s = Some s' ->
        coordinator s' = SJoin n /\ jobs s' = jobs s /\
        procs s' = procs s) /\
    (exists s', step cfg Interrupt s = Some s').
Proof.
  intros cfg log w sched s n Hrun Hpc Hall Hit.
  pose proof (inv_reachable _ _ _ _ _ Hrun) as HI.
  split; [|split].
  - intros a Ha Hf. destruct (step cfg a s) as [s'|] eqn:Hs; [|reflexivity].
    destruct (stalled_step cfg a s s' n HI Hpc Hall Hit Ha Hs)
      as [[v Hv] _].
    exfalso. apply (Hf v). assumption.
  - intros sched' s' Hno Hrun'.
    apply (stalled_run cfg n sched' s s'); assumption.
  - simpl. unfold interrupt_step. rewrite Hpc. eauto.
Qed.

Lemma raised_stays_raised cfg sched :
  forall s s' e,
    coordinator s = SRaise e -> run cfg sched s = Some s' ->
    coordinator s' = SRaise e.
Proof.
  induction sched as [|a sched IH]; intros s s' e Hpc Hrun; simpl in Hrun.
  - inversion Hrun. subst. assumption.
  - destruct (step cfg a s) as [s1|] eqn:Hs; [|discriminate].
    apply (IH s1 s' e); [|assumption].
    destruct a as [|i| |i]; simpl in Hs.
    + unfold scale_step in Hs. rewrite Hpc in Hs. discriminate.
    + destruct (worker_step_produces cfg i s s1 Hs) as [Hc _]. congruence.
    + unfold interrupt_step in Hs. rewrite Hpc in Hs. discriminate.
    + unfold feeder_step in Hs.
      destruct (take_first i (feeding s)) as [[r rest]|]; [|discriminate].
      inversion Hs. assumption.
Qed.

(** X14: a KeyboardInterrupt that reaches the coordinator outside the
    [try] around [jobs.join()], in [add_jobs] or in the loop that drains
    the Results, is not caught: [scale] raises it, and whatever the
    workers still do, no Summary is returned. *)
Theorem interrupt_outside_join_is_fatal :
  forall (cfg : Config) (s : State),
    outside_join s ->
    exists s1,
      step cfg Interrupt s = Some s1 /\
      coordinator s1 = SRaise KeyboardInterrupt /\
      history s1 = history s /\
      (forall sched s2,
          run cfg sched s1 = Some s2 ->
          coordinator s2 = SRaise KeyboardInterrupt).
Proof.
  intros cfg s Hout.
  exists (set_coordinator (SRaise KeyboardInterrupt) s).
  split.
  - simpl. unfold interrupt_step. unfold outside_join in Hout.
    destruct (coordinator s); try contradiction; reflexivity.
  - split; [reflexivity|]. split; [reflexivity|].
    intros sched s2. apply raised_stays_raised. reflexivity.
Qed.

Lemma difference_is_failed s summary :
  Inv s -> coordinator s = SReturn summary -> canceled summary = false ->
  results s = [] -> feeding s = [] ->
  difference summary = Z.of_nat (List.length (failed (history s))).
Proof.
  intros HI Hpc Hnc Hr Hf.
  pose proof (inv_coordinator s HI) as Hco.
  unfold coordinator_inv in Hco. rewrite Hpc in Hco.
  destruct Hco as (Htodo & _ & Hcp & Hsc & Hfin). specialize (Hfin Hnc).
  pose proof (inv_drained_good s HI) as Hgood.
  destruct (total_copied_scaled _ Hgood) as (Hsum & _ & _).
  destruct (inv_all_done s HI Hfin) as [_ Hperm].
  apply Permutation_length in Hperm. rewrite length_map in Hperm.
  pose proof (inv_outcomes s HI) as Hout.
  pose proof (Permutation_length (inv_whereabouts s HI)) as Hw.
  rewrite Hr, Hf, !length_app in Hw. simpl in Hw.
  unfold difference, enqueued in *. lia.
Qed.

(** X15: a batch that was not canceled, in which no job raised and
    every Result that was put had reached the queue before the loop of
    [scale] found it empty, so that none is with a feeder thread or has
    arrived since, is summarized without a "skipped" part and without
    "[canceled]": the counts of copied and scaled images add up to the
    number of jobs. *)
Theorem clean_batch_is_summarized_without_skipped :
  forall (cfg : Config) (log : list (string * bool)) (w : world)
         (sched : list action) (s : State) (summary : Summary),
    run cfg sched (initial cfg log w) = Some s ->
    coordinator s = SReturn summary ->
    canceled summary = false ->
    failed (history s) = [] ->
    results s = [] -> feeding s = [] ->
    sum_copied summary + sum_scaled summary = todo summary /\
    summarize summary (concurrency cfg)
    = ("copied " ++ str_int (sum_copied summary) ++
       " scaled " ++ str_int (sum_scaled summary) ++
       " using " ++ str_int (concurrency cfg) ++ " processes")%string.
Proof.
  intros cfg log w sched s summary Hrun Hpc Hnc Hf Hr Hfd.
  pose proof (inv_reachable _ _ _ _ _ Hrun) as HI.
  pose proof (difference_is_failed s summary HI Hpc Hnc Hr Hfd) as Hd.
  rewrite Hf in Hd. simpl in Hd.
  split; [unfold difference in Hd; lia|].
  unfold summarize. rewrite Hd, Hnc. cbn [Z.eqb].
  rewrite !append_assoc. cbn [append].
  repeat f_equal.
Qed.

(** *** The order of the Results of one worker *)

Lemma produced_by_snoc v h e :
  produced_by v (h ++ [e]) = produced_by v h ++ produced_by v [e].
Proof. apply flat_map_app. Qed.

Lemma arrived_from_snoc v h e :
  arrived_from v (h ++ [e]) = arrived_from v h ++ arrived_from v [e].
Proof. apply flat_map_app. Qed.

Lemma buffered_snoc v l x :
  buffered v (l ++ [x]) = buffered v l ++ one_if (fst x) v (snd x).
Proof.
  unfold buffered. rewrite flat_map_app. cbn [flat_map].
  rewrite app_nil_r. reflexivity.
Qed.

Lemma take_first_buffered w l r rest v :
  take_first w l = Some (r, rest) ->
  buffered v l = one_if w v r ++ buffered v rest.
Proof.
  revert r rest. induction l as [|[u x] l IH]; intros r rest; simpl;
    [discriminate|].
  destruct (Nat.eqb_spec u w) as [E|N].
  - intros H. inversion H. subst. reflexivity.
  - destruct (take_first w l) as [[r' rest']|]; [|discriminate].
    intros H. inversion H. subst r rest.
    rewrite (IH r' rest' eq_refl). cbn [buffered flat_map fst snd].
    unfold one_if.
    destruct (Nat.eqb_spec u v) as [Eu|Nu];
      destruct (Nat.eqb_spec w v) as [Ew|Nw]; try reflexivity.
    exfalso. apply N. congruence.
Qed.

Ltac fifo_snoc :=
  cbn [history feeding set_coordinator];
  rewrite ?produced_by_snoc, ?arrived_from_snoc, ?buffered_snoc;
  cbn [produced_by arrived_from flat_map app fst snd];
  rewrite ?app_nil_r.

Lemma fifo_inv_step cfg a s s' :
  fifo_inv s -> step cfg a s = Some s' -> fifo_inv s'.
Proof.
  intros HF. unfold fifo_inv. destruct a as [|i| |i]; simpl.
  - unfold scale_step.
    destruct (coordinator s) as [|[|[n name] rest] [t|]|n|n c cp sc|summary|e];
      try discriminate;
      try (intros H v; inversion H; fifo_snoc; apply HF).
    + destruct (os_listdir (source cfg) (fs s)); intros H v; inversion H;
        fifo_snoc; apply HF.
    + destruct (join_ready (jobs s)); [|discriminate].
      intros H v; inversion H. fifo_snoc. apply HF.
    + destruct (results s) as [|r rest]; intros H v; inversion H;
        fifo_snoc; apply HF.
  - unfold worker_step.
    destruct (nth_error (procs s) i) as [[|job|job pending|e]|];
      try discriminate.
    + unfold get. destruct (items (jobs s)); [discriminate|].
      intros H v. inversion H. fifo_snoc. apply HF.
    + intros H v. inversion H. unfold worker_try.
      destruct (scale_one _ _ _ _ _) as [[result|[msg|cls]] fs'];
        fifo_snoc; rewrite ?app_assoc, ?HF; reflexivity.
    + intros H v. inversion H. unfold worker_finally.
      destruct (task_done (jobs s)); fifo_snoc; apply HF.
  - unfold interrupt_step.
    destruct (coordinator s) as [|it t|n|n c cp sc|summary|e];
      try discriminate; intros H v; inversion H; fifo_snoc; apply HF.
  - unfold feeder_step.
    destruct (take_first i (feeding s)) as [[r rest]|] eqn:Htake;
      [|discriminate].
    intros H v. inversion H. fifo_snoc.
    rewrite HF, (take_first_buffered _ _ _ _ v Htake), app_assoc.
    reflexivity.
Qed.

Lemma fifo_inv_run cfg sched :
  forall s s', fifo_inv s -> run cfg sched s = Some s' -> fifo_inv s'.
Proof.
  induction sched as [|a sched IH]; intros s s' HF Hrun; simpl in Hrun.
  - inversion Hrun. subst. assumption.
  - destruct (step cfg a s) as [s1|] eqn:Hs; [|discriminate].
    apply (IH s1 s'); [|assumption].
    apply (fifo_inv_step cfg a s); assumption.
Qed.

(** X17: the Results of one worker reach the queue in the order in
    which the worker put them: at any time the Results that a worker
    has put are those of its Results that have reached the queue,
    followed by those that its feeder thread still holds, both in the
    order of the puts. *)
Theorem results_of_a_worker_arrive_in_order :
  forall (cfg : Config) (log : list (string * bool)) (w : world)
         (sched : list action) (s : State) (v : nat),
    run cfg sched (initial cfg log w) = Some s ->
    produced_by v (history s)
    = arrived_from v (history s) ++ buffered v (feeding s).
Proof.
  intros cfg log w sched s v Hrun.
  apply (fifo_inv_run cfg sched (initial cfg log w) s); [|assumption].
  intros u. reflexivity.
Qed.

Lemma worker_step_puts cfg i s s' :
  worker_step cfg i s = Some s' ->
  puts (history s') = puts (history s) /\ coordinator s' = coordinator s.
Proof.
  unfold worker_step.
  destruct (nth_error (procs s) i) as [[|job|job pending|e]|];
    try discriminate.
  - unfold get. destruct (items (jobs s)); [discriminate|].
    intros H. inversion H. cbn [coordinator history]. history_snoc. auto.
  - intros H. inversion H. unfold worker_try.
    destruct (scale_one _ _ _ _ _) as [[result|[msg|cls]] fs'];
      cbn [coordinator history]; history_snoc; auto.
  - intros H. inversion H. unfold worker_finally.
    destruct (task_done (jobs s)); cbn [coordinator history]; history_snoc;
      auto.
Qed.

Lemma listing_inv_step cfg w names a s s' :
  os_listdir (source cfg) w = Ok names ->
  Inv s -> listing_inv cfg w names s ->
  step cfg a s = Some s' -> listing_inv cfg w names s'.
Proof.
  intros Hls HI [[rest Hpre] Hco] Hstep.
  pose proof (inv_coordinator s HI) as HcI. unfold coordinator_inv in HcI.
  unfold listing_inv. destruct a as [|i| |i]; simpl in Hstep.
  - unfold scale_step in Hstep.
    destruct (coordinator s) as [|it t|n|n c cp sc|summary|e];
      try discriminate.
    + destruct Hco as (Hfs & _ & _). destruct HcI as [Hputs _].
      rewrite Hfs, Hls in Hstep. inversion Hstep.
      cbn [set_coordinator coordinator history].
      split; [exists rest; assumption|].
      rewrite Hputs, map_snd_enumerate. reflexivity.
    + destruct it as [|[n name] it].
      * destruct t; inversion Hstep;
          cbn [set_coordinator coordinator history];
          (split; [exists rest; assumption|]); auto.
        cbn [map] in Hco. rewrite app_nil_r in Hco. assumption.
      * inversion Hstep. cbn [coordinator history]. history_snoc.
        cbn [map snd] in Hco.
        split.
        -- exists (map (make_job (source cfg) (target cfg)) (map snd it)).
           rewrite Hco, <- app_assoc. reflexivity.
        -- rewrite Hco, <- app_assoc. reflexivity.
    + destruct (join_ready (jobs s)); [|discriminate].
      inversion Hstep. cbn [set_coordinator coordinator history].
      split; [exists rest; assumption|assumption].
    + destruct (results s) as [|r rs]; inversion Hstep;
        cbn [set_coordinator coordinator history]; history_snoc;
        (split; [exists rest; assumption|assumption]).
  - destruct (worker_step_puts cfg i s s' Hstep) as [Hp Hc].
    rewrite Hc, Hp. split; [exists rest; assumption|].
    destruct (coordinator s) as [|it t|n|n c cp sc|summary|e];
      try assumption.
    exfalso. destruct Hco as (_ & Hit & Hall).
    unfold worker_step in Hstep.
    destruct (nth_error (procs s) i) as [p|] eqn:Hpi; [|discriminate].
    apply nth_error_In in Hpi. rewrite Forall_forall in Hall.
    rewrite (Hall p Hpi) in Hstep. unfold get in Hstep.
    rewrite Hit in Hstep. discriminate.
  - unfold interrupt_step in Hstep.
    destruct (coordinator s) as [|it t|n|n c cp sc|summary|e];
      try discriminate; inversion Hstep;
      cbn [set_coordinator coordinator history]; history_snoc;
      (split; [exists rest; assumption|]); auto.
  - unfold feeder_step in Hstep.
    destruct (take_first i (feeding s)) as [[r rs]|]; [|discriminate].
    inversion Hstep. cbn [coordinator history fs jobs procs]. history_snoc.
    split; [exists rest; assumption|assumption].
Qed.

Lemma listing_inv_run cfg w names sched :
  forall s s',
    os_listdir (source cfg) w = Ok names ->
    Inv s -> listing_inv cfg w names s ->
    run cfg sched s = Some s' -> listing_inv cfg w names s'.
Proof.
  induction sched as [|a sched IH]; intros s s' Hls HI HL Hrun;
    simpl in Hrun.
  - inversion Hrun. subst. assumption.
  - destruct (step cfg a s) as [s1|] eqn:Hs; [|discriminate].
    apply (IH s1 s' Hls); [| |assumption].
    + apply (inv_step cfg a s); assumption.
    + apply (listing_inv_step cfg w names a s); assumption.
Qed.

(** X2: in the batch the jobs follow the one listing that [add_jobs]
    takes of the source directory, whatever the workers do meanwhile:
    the jobs put are always the jobs of the first entries of the
    listing, in order; once [add_jobs] has returned there is exactly one
    job for each entry, and [todo], in [join()] and in the Summary, is
    the number of entries. *)
Theorem jobs_follow_listing :
  forall (cfg : Config) (log : list (string * bool)) (w : world)
         (names : list string) (sched : list action) (s : State),
    os_listdir (source cfg) w = Ok names ->
    run cfg sched (initial cfg log w) = Some s ->
    let all := map (make_job (source cfg) (target cfg)) names in
    (exists rest, all = puts (history s) ++ rest) /\
    (jobs_added s -> puts (history s) = all) /\
    (forall n, coordinator s = SJoin n -> n = Z.of_nat (List.length names)) /\
    (forall summary,
        coordinator s = SReturn summary ->
        todo summary = Z.of_nat (List.length names)).
Proof.
  intros cfg log w names sched s Hls Hrun all.
  pose proof (inv_reachable _ _ _ _ _ Hrun) as HI.
  assert (HL0 : listing_inv cfg w names (initial cfg log w)).
  { unfold listing_inv, initial, create_processes.
    cbn [coordinator history fs jobs items empty_queue procs puts flat_map
         app].
    split; [eexists; reflexivity|]. repeat split.
    apply Forall_forall. intros p Hp. apply repeat_spec in Hp. assumption. }
  pose proof (listing_inv_run cfg w names sched _ _ Hls
                (inv_initial cfg log w) HL0 Hrun) as [Hpre Hco].
  fold all in Hpre, Hco.
  pose proof (inv_coordinator s HI) as HcI.
  unfold coordinator_inv, enqueued in HcI.
  assert (Hlen : List.length all = List.length names)
    by (unfold all; apply length_map).
  split; [assumption|]. split; [|split].
  - unfold jobs_added. destruct (coordinator s); try contradiction;
      intros _; symmetry; assumption.
  - intros n Hpc. rewrite Hpc in Hco, HcI. destruct HcI as [Hn _].
    rewrite Hn, <- Hco, Hlen. reflexivity.
  - intros summary Hpc. rewrite Hpc in Hco, HcI. destruct HcI as [Hn _].
    rewrite Hn, <- Hco, Hlen. reflexivity.
Qed.

End Pool.

(** ** The program run on the small library *)

Section Runs.

Import Float FloatFacts.
#[local] Existing Instance Demo.library.

(** The scenarios of the specification. *)
Example stride_800_400 : subsample_stride 400 800 400 = Ok 2.
Proof. vm_compute. reflexivity. Qed.

Example factor_800_1600 :
  exists f, scale_factor 400 800 1600 = Ok f /\ (F2Q f == 1 # 4)%Q.
Proof. eexists. split; [vm_compute; reflexivity|]. vm_compute. reflexivity. Qed.

Example summary_of_demo_batch :
  run Demo.cfg Demo.schedule (initial Demo.cfg [] Demo.photos)
  = Some Demo.final /\
  coordinator Demo.final = SReturn (mkSummary 3 1 1 false) /\
  summarize (mkSummary 3 1 1 false) 2
  = "copied 1 scaled 1 skipped 1 using 2 processes"%string.
Proof. repeat split. Qed.

Example summary_of_interrupted_batch :
  run Demo.cfg Demo.interrupted (initial Demo.cfg [] Demo.photos)
  = Some Demo.canceled_final /\
  coordinator Demo.canceled_final = SReturn (mkSummary 3 0 1 true) /\
  summarize (mkSummary 3 0 1 true) 2
  = "copied 0 scaled 1 skipped 2 using 2 processes [canceled]"%string.
Proof. repeat split. Qed.

(** With every worker ended and a job still queued, a feeder thread
    can still write a Result that was put before; the coordinator stays
    in [jobs.join()]. *)
Example feeder_writes_after_workers_exited :
  run Demo.cfg_zero Demo.before_stuck_feeding
    (initial Demo.cfg_zero [] Demo.odd_photos)
  = Some Demo.stuck_feeding /\
  coordinator Demo.stuck_feeding = SJoin 3 /\
  procs Demo.stuck_feeding = [WExit ZeroDivisionError] /\
  items (jobs Demo.stuck_feeding)
  = [("/in/c.xpm", "/out/c.xpm")%string] /\
  exists s',
    step Demo.cfg_zero (Feeder 0) Demo.stuck_feeding = Some s' /\
    coordinator s' = SJoin 3 /\
    results s' = [mkResult 1 0 "/out/a.xpm"].
Proof.
  repeat split. eexists. repeat split.
Qed.

(** [round] against the IEEE 754 division and multiplication of the
    standard library's [SpecFloat], on the quotients used below. *)
Example round_agrees_with_SpecFloat :
  let ieee_div a b :=
    SFdiv 53 1024 (S754_finite false (Z.to_pos a) 0)
      (S754_finite false (Z.to_pos b) 0) in
  let as_spec f := S754_finite false (Z.to_pos (Fnum f)) (Fexp f) in
  ieee_div 400 530 = as_spec (round (400 # 530)) /\
  ieee_div 400 800 = as_spec (round (400 # 800)) /\
  ieee_div 400 1600 = as_spec (round (400 # 1600)) /\
  ieee_div 800 400 = as_spec (round (800 # 400)) /\
  ieee_div 1 10 = as_spec (round (1 # 10)) /\
  SFmul 53 1024 (ieee_div 400 530) (S754_finite false 530 0)
  = as_spec (round (F2Q (round (400 # 530)) * inject_Z 530)).
Proof. vm_compute. repeat split. Qed.

(** C5, counterexample: for the size 400 and an image 530 wide and 100
    high the factor is the float nearest to [400 / 530], which is above
    it: [factor * 530] exceeds 400, also when that product is itself
    rounded to a float. *)
Lemma factor_times_width_exceeds_size :
  exists f,
    scale_factor 400 530 100 = Ok f /\
    (inject_Z 400 < F2Q f * inject_Z 530)%Q /\
    (inject_Z 400 < F2Q (round (F2Q f * inject_Z 530)))%Q.
Proof.
  eexists. split; [vm_compute; reflexivity|].
  split; vm_compute; reflexivity.
Qed.

(** C6, counterexample: for the size [2^53] and an image [2^53 + 1]
    wide the quotient rounds to 1.0 and the stride is 1, although the
    image is wider than the size. *)
Lemma stride_too_small_for_huge_image :
  subsample_stride (2 ^ 53) (2 ^ 53 + 1) 1 = Ok 1 /\
  2 ^ 53 < 2 ^ 53 + 1 /\
  ~ (2 ^ 53 + 1 <= 1 * 2 ^ 53) /\
  Qceiling (inject_Z (2 ^ 53 + 1) / inject_Z (2 ^ 53)) = 2.
Proof.
  split; [vm_compute; reflexivity|]. split; [lia|].
  split; [lia|vm_compute; reflexivity].
Qed.

(** C8, the failing input: a source directory without entries.
    [add_jobs] raises UnboundLocalError and puts nothing, where the count
    of the entries would be 0. *)
Theorem add_jobs_on_empty_directory :
  Demo.listdir "/in" [] = Ok [] /\
  add_jobs (lib := Demo.library) "/in" "/out" empty_queue []
  = (Raise UnboundLocalError, empty_queue).
Proof. split; reflexivity. Qed.

(** C9, counterexample: a command line with concurrency 0 is not
    rejected.  The batch starts without any worker, the coordinator
    puts the three jobs and then waits in [jobs.join()] for
    acknowledgements that nobody will send. *)
Lemma zero_workers_is_not_rejected :
  main_start Demo.no_workers Demo.photos = Ok (Demo.cfg0, Demo.started0) /\
  concurrency Demo.cfg0 = 0 /\
  procs Demo.started0 = [] /\
  run Demo.cfg0 (repeat Coordinator 5) Demo.started0 = Some Demo.stalled0 /\
  coordinator Demo.stalled0 = SJoin 3 /\
  unfinished (jobs Demo.stalled0) = 3%nat /\
  step Demo.cfg0 Coordinator Demo.stalled0 = None.
Proof. repeat split. Qed.

(** C1, the failing input: a directory with two images that both
    load, two workers, no interrupt.  Worker 1 has put its Result and
    acknowledged its job, but its feeder thread has not written the
    Result when [jobs.join()] returns, and the loop of [scale], which
    the source calls safe because all jobs have finished, finds the
    queue empty after the Result of worker 0.  [scale] returns
    [Summary(2, 0, 1, False)] and the batch is summarized with
    "skipped 1", although both jobs were handled, both produced a
    Result and none raised: the Result not counted is still with the
    feeder thread, and reaches the queue after [scale] has returned. *)
Theorem result_in_flight_is_counted_as_skipped :
  run Demo.cfg Demo.late_schedule (initial Demo.cfg [] Demo.two_photos)
  = Some Demo.late_final /\
  Forall (fun a => a <> Interrupt) Demo.late_schedule /\
  coordinator Demo.late_final = SReturn (mkSummary 2 0 1 false) /\
  difference (mkSummary 2 0 1 false) = 1 /\
  summarize (mkSummary 2 0 1 false) 2
  = "copied 0 scaled 1 skipped 1 using 2 processes"%string /\
  puts (history Demo.late_final)
  = [("/in/a.xpm", "/out/a.xpm"); ("/in/b.xpm", "/out/b.xpm")]%string /\
  map snd (handled (history Demo.late_final))
  = puts (history Demo.late_final) /\
  produced (history Demo.late_final)
  = [mkResult 0 1 "/out/a.xpm"; mkResult 1 0 "/out/b.xpm"] /\
  failed (history Demo.late_final) = [] /\
  unfinished (jobs Demo.late_final) = O /\
  drained (history Demo.late_final) = [mkResult 0 1 "/out/a.xpm"] /\
  feeding Demo.late_final = [(1%nat, mkResult 1 0 "/out/b.xpm")] /\
  step Demo.cfg (Feeder 1) Demo.late_final = Some Demo.late_arrived /\
  results Demo.late_arrived = [mkResult 1 0 "/out/b.xpm"] /\
  coordinator Demo.late_arrived = SReturn (mkSummary 2 0 1 false).
Proof.
  split; [reflexivity|].
  split; [repeat constructor; discriminate|].
  repeat split.
Qed.

(** The complete run of the demo batch: three jobs, one copied, one
    scaled, one skipped; and the run with the late feeder: the job
    skipped there is the one whose Result is with the feeder thread. *)
Lemma summary_counts_drained_results_witness :
  (run Demo.cfg Demo.schedule (initial Demo.cfg [] Demo.photos)
   = Some Demo.final /\
   coordinator Demo.final = SReturn (mkSummary 3 1 1 false) /\
   3 = 1 + 1 + difference (mkSummary 3 1 1 false) /\
   0 <= difference (mkSummary 3 1 1 false) /\
   difference (mkSummary 3 1 1 false)
   = Z.of_nat (List.length (failed (history Demo.final)))
     + Z.of_nat (List.length (results Demo.final))
     + Z.of_nat (List.length (feeding Demo.final))) /\
  (coordinator Demo.late_final = SReturn (mkSummary 2 0 1 false) /\
   difference (mkSummary 2 0 1 false)
   = Z.of_nat (List.length (failed (history Demo.late_final)))
     + Z.of_nat (List.length (results Demo.late_final))
     + Z.of_nat (List.length (feeding Demo.late_final))).
Proof.
  split.
  - split; [reflexivity|]. split; [reflexivity|].
    destruct (summary_counts_drained_results (lib := Demo.library)
                Demo.cfg [] Demo.photos Demo.schedule
                Demo.final (mkSummary 3 1 1 false) eq_refl eq_refl)
      as (H1 & H2 & _ & _ & _ & _ & H7).
    destruct (H7 eq_refl) as (_ & _ & H8).
    split; [exact H1|]. split; [exact H2|exact H8].
  - split; [reflexivity|].
    destruct (summary_counts_drained_results (lib := Demo.library)
                Demo.cfg [] Demo.two_photos Demo.late_schedule
                Demo.late_final (mkSummary 2 0 1 false) eq_refl eq_refl)
      as (_ & _ & _ & _ & _ & _ & H7).
    destruct (H7 eq_refl) as (_ & _ & H8). exact H8.
Defined.

(** In the same run every job put has been acknowledged exactly once. *)
Lemma every_job_acknowledged_once_witness :
  run Demo.cfg Demo.schedule (initial Demo.cfg [] Demo.photos)
  = Some Demo.final /\
  join_returned Demo.final /\
  Permutation (puts (history Demo.final))
    (map snd (acks (history Demo.final))) /\
  Permutation (gets (history Demo.final))
    (acks (history Demo.final) ++ holding (procs Demo.final)).
Proof.
  split; [reflexivity|]. split; [reflexivity|].
  destruct (every_job_acknowledged_once (lib := Demo.library)
              Demo.cfg [] Demo.photos Demo.schedule Demo.final eq_refl)
    as (_ & H2 & _ & _ & _ & _ & _ & H8).
  split; [exact (H8 eq_refl)|exact H2].
Defined.

(** Worker 0 has taken the file that is not an image: the error is
    reported, no Result is put, the job is acknowledged and the worker
    is back at [jobs.get()]. *)
Lemma image_error_is_reported_and_acknowledged_witness :
  run Demo.cfg Demo.before_error (initial Demo.cfg [] Demo.photos)
  = Some Demo.at_error /\
  exists s1 s2,
    step Demo.cfg (Worker 0) Demo.at_error = Some s1 /\
    step Demo.cfg (Worker 0) s1 = Some s2 /\
    reported s1
    = reported Demo.at_error ++ [("cannot load /in/c.xpm"%string, true)] /\
    results s2 = results Demo.at_error /\
    acks (history s2)
    = acks (history Demo.at_error)
      ++ [(0%nat, ("/in/c.xpm", "/out/c.xpm")%string)] /\
    nth_error (procs s2) 0 = Some WGet.
Proof.
  split; [reflexivity|].
  destruct (image_error_is_reported_and_acknowledged
              (lib := Demo.library) Demo.cfg [] Demo.photos
              Demo.before_error Demo.at_error 0%nat
              ("/in/c.xpm", "/out/c.xpm")%string
              "cannot load /in/c.xpm"%string (fs Demo.at_error)
              eq_refl eq_refl eq_refl)
    as (s1 & s2 & H1 & H2 & H3 & _ & _ & H6 & _ & _ & H9 & _ & _ & H12 & _).
  exists s1, s2. repeat split; assumption.
Defined.

(** The image 300 x 200 fits the size 400: it is saved as it is. *)
Lemma scale_one_copies_small_image_witness :
  scale_one 400 true "/in/b.xpm" "/out/b.xpm" Demo.photos
  = (Ok (mkResult 1 0 "/out/b.xpm"),
     (("/out/b.xpm"%string, Demo.Picture 300 200) :: Demo.photos)).
Proof.
  exact (proj1 (scale_one_copies_small_image (lib := Demo.library)
                  400 true "/in/b.xpm" "/out/b.xpm" Demo.photos (300, 200)
                  eq_refl ltac:(simpl; lia) ltac:(simpl; lia))).
Defined.

(** Size 400, image 800 x 1600: the factor is 0.25. *)
Lemma scale_factor_nearly_maximal_witness :
  exists f,
    scale_factor 400 800 1600 = Ok f /\
    (F2Q f == 1 # 4)%Q /\
    (F2Q f * inject_Z 800 <= inject_Z 400 * (1 + pow2 (- 53)))%Q /\
    (F2Q f * inject_Z 1600 <= inject_Z 400 * (1 + pow2 (- 53)))%Q.
Proof.
  destruct (scale_factor_nearly_maximal 400 800 1600
              ltac:(split; [lia|reflexivity])
              ltac:(split; [lia|reflexivity])
              ltac:(split; [lia|reflexivity])
              ltac:(left; lia))
    as (H1 & _ & H3 & H4 & _).
  eexists. split; [exact H1|]. split; [vm_compute; reflexivity|].
  split; assumption.
Defined.

(** Size 400, image 800 x 400: the stride is 2. *)
Lemma subsample_stride_smallest_witness :
  subsample_stride 400 800 400 = Ok 2 /\
  800 <= 2 * 400 /\ 400 <= 2 * 400 /\
  (forall k, 0 < k -> 800 <= k * 400 -> 400 <= k * 400 -> 2 <= k).
Proof.
  destruct (subsample_stride_smallest 400 800 400
              ltac:(lia)
              ltac:(split; [lia|reflexivity])
              ltac:(split; [lia|reflexivity])
              ltac:(left; lia))
    as (H1 & _ & _ & H4 & H5 & H6).
  split; [exact H1|]. split; [exact H4|]. split; [exact H5|exact H6].
Defined.


(** The same directory twice on the command line is rejected; a
    concurrency of 0 is not. *)
Lemma only_equal_directories_are_rejected_witness :
  (exists e, main_start Demo.same_directory Demo.photos = Raise e) /\
  (exists s0,
      main_start Demo.no_workers Demo.photos = Ok (Demo.cfg0, s0) /\
      procs s0 = []).
Proof.
  destruct (only_equal_directories_are_rejected (lib := Demo.library)
              Demo.same_directory Demo.photos) as [H1 _].
  destruct (only_equal_directories_are_rejected (lib := Demo.library)
              Demo.no_workers Demo.photos) as [_ H2].
  split; [exact (H1 eq_refl)|].
  destruct (H2 ltac:(discriminate) Demo.photos eq_refl)
    as (s0 & E & _ & _ & Hp).
  exists s0. split; [exact E|]. apply Hp. simpl. lia.
Defined.

(** The demo configuration on an empty disk. *)
Lemma empty_directory_raises_unbound_local_witness :
  add_jobs (lib := Demo.library) "/in" "/out" empty_queue []
  = (Raise UnboundLocalError, empty_queue) /\
  (exists s2,
      run Demo.cfg [Coordinator; Coordinator] (initial Demo.cfg [] [])
      = Some s2 /\
      coordinator s2 = SRaise UnboundLocalError).
Proof.
  destruct (empty_directory_raises_unbound_local (lib := Demo.library)
              Demo.cfg [] [] eq_refl) as (H1 & (s2 & H2 & H3 & _) & _).
  split; [exact (H1 empty_queue)|].
  exists s2. split; assumption.
Defined.

(** The three entries of the demo directory. *)
Lemma add_jobs_nonempty_witness :
  add_jobs "/in" "/out" empty_queue Demo.photos
  = (Ok 3,
     mkQueue [("/in/a.xpm", "/out/a.xpm"); ("/in/b.xpm", "/out/b.xpm");
              ("/in/c.xpm", "/out/c.xpm")]%string 3).
Proof.
  exact (add_jobs_nonempty (lib := Demo.library) "/in" "/out" empty_queue
           Demo.photos ["a.xpm"; "b.xpm"; "c.xpm"]%string eq_refl
           ltac:(discriminate)).
Defined.

Lemma jobs_follow_listing_witness :
  run Demo.cfg Demo.schedule (initial Demo.cfg [] Demo.photos)
  = Some Demo.final /\
  puts (history Demo.final)
  = map (make_job "/in" "/out") ["a.xpm"; "b.xpm"; "c.xpm"]%string /\
  todo (mkSummary 3 1 1 false) = 3.
Proof.
  split; [reflexivity|].
  destruct (jobs_follow_listing (lib := Demo.library) Demo.cfg []
              Demo.photos ["a.xpm"; "b.xpm"; "c.xpm"]%string Demo.schedule
              Demo.final eq_refl eq_refl) as (_ & H2 & _ & H4).
  split; [exact (H2 I)|exact (H4 _ eq_refl)].
Defined.

Lemma distinct_entries_get_distinct_paths_witness :
  NoDup (map snd (map (make_job "/in" "/out") ["a.xpm"; "b.xpm"]%string)).
Proof.
  apply (proj2 (distinct_entries_get_distinct_paths
                  "/in" "/out" ["a.xpm"; "b.xpm"]%string
                  ltac:(repeat constructor)
                  ltac:(constructor;
                        [intros [H|[]]; discriminate
                        |constructor; [intros []|constructor]]))).
Defined.

Lemma progress_line_names_entry_witness :
  basename "/out/a.xpm" = "a.xpm"%string /\
  progress_line (mkResult 1 0 "/out/a.xpm") = "copied a.xpm"%string.
Proof.
  exact (progress_line_names_entry "/in" "/out" "a.xpm" 1 0 eq_refl).
Defined.

(** The image 800 x 400 does not fit the size 400. *)
Lemma scale_one_result_tells_copy_from_scale_witness :
  exists oldImage : Z * Z,
    Demo.from_file "/in/a.xpm" Demo.photos = Ok oldImage /\
    mkResult 0 1 "/out/a.xpm"
    = (if ((fst oldImage <=? 400) && (snd oldImage <=? 400))%bool
       then mkResult 1 0 "/out/a.xpm"
       else mkResult 0 1 "/out/a.xpm").
Proof.
  exact (scale_one_result_tells_copy_from_scale (lib := Demo.library)
           400 false "/in/a.xpm" "/out/a.xpm" Demo.photos
           (("/out/a.xpm"%string, Demo.Picture 400 200) :: Demo.photos)
           (mkResult 0 1 "/out/a.xpm") eq_refl).
Defined.

Lemma scale_one_saves_only_target_witness :
  exists img : Z * Z,
    Demo.save img "/out/a.xpm" Demo.photos
    = (Ok tt, ("/out/a.xpm"%string, Demo.Picture 400 200) :: Demo.photos).
Proof.
  destruct (scale_one_saves_only_target (lib := Demo.library)
              400 false "/in/a.xpm" "/out/a.xpm" Demo.photos
              (("/out/a.xpm"%string, Demo.Picture 400 200) :: Demo.photos)
              (Ok (mkResult 0 1 "/out/a.xpm")) eq_refl)
    as [[_ [e He]]|H]; [discriminate|exact H].
Defined.

Lemma scale_one_size_zero_divides_by_zero_witness :
  scale_one 0 false "/in/a.xpm" "/out/a.xpm" Demo.photos
  = (Raise ZeroDivisionError, Demo.photos).
Proof.
  exact (scale_one_size_zero_divides_by_zero (lib := Demo.library)
           "/in/a.xpm" "/out/a.xpm" Demo.photos (800, 400) eq_refl
           ltac:(left; reflexivity)).
Defined.


(** After the run with the late feeder the Result of worker 1 reaches
    the queue, and the Summary stays as it was returned. *)
Lemma returned_summary_is_final_witness :
  items (jobs Demo.late_final) = [] /\
  coordinator Demo.late_arrived = SReturn (mkSummary 2 0 1 false) /\
  drained (history Demo.late_arrived) = drained (history Demo.late_final).
Proof.
  destruct (returned_summary_is_final (lib := Demo.library) Demo.cfg []
              Demo.two_photos Demo.late_schedule Demo.late_final
              (mkSummary 2 0 1 false) eq_refl eq_refl eq_refl)
    as (H1 & _ & _ & H4).
  destruct (H4 [Feeder 1] Demo.late_arrived eq_refl)
    as (H5 & _ & _ & H6 & _).
  split; [exact H1|]. split; [exact H5|exact H6].
Defined.

Lemma results_are_drained_in_order_witness :
  arrived (history Demo.at_join)
  = drained (history Demo.at_join) ++ results Demo.at_join /\
  Permutation (produced (history Demo.late_final))
    (drained (history Demo.late_final) ++ results Demo.late_final
     ++ map snd (feeding Demo.late_final)).
Proof.
  split.
  - exact (proj1 (results_are_drained_in_order (lib := Demo.library)
                    Demo.cfg [] Demo.photos Demo.before_interrupt
                    Demo.at_join eq_refl)).
  - exact (proj1 (proj2 (results_are_drained_in_order (lib := Demo.library)
                           Demo.cfg [] Demo.two_photos Demo.late_schedule
                           Demo.late_final eq_refl))).
Defined.

Lemma reported_lines_follow_history_witness :
  reported Demo.final = [] ++ reports (history Demo.final).
Proof.
  exact (reported_lines_follow_history (lib := Demo.library) Demo.cfg []
           Demo.photos Demo.schedule Demo.final eq_refl).
Defined.

Lemma pool_is_fixed_witness :
  List.length (procs Demo.canceled_zero) = 1%nat /\
  nth_error (procs Demo.canceled_zero) 0 = Some (WExit ZeroDivisionError).
Proof.
  destruct (pool_is_fixed (lib := Demo.library) Demo.cfg_zero [] Demo.photos
              (Demo.before_zero ++ [Worker 0; Worker 0]) [Interrupt]
              Demo.stuck_zero Demo.canceled_zero eq_refl eq_refl)
    as [H1 H2].
  split; [exact H1|exact (H2 0%nat ZeroDivisionError eq_refl)].
Defined.

Lemma exited_workers_leave_join_waiting_witness :
  (forall a, a <> Interrupt -> (forall v, a <> Feeder v) ->
             step Demo.cfg_zero a Demo.stuck_zero = None) /\
  (forall sched' s',
      Forall (fun a => a <> Interrupt) sched' ->
      run Demo.cfg_zero sched' Demo.stuck_zero = Some s' ->
      coordinator s' = SJoin 3 /\ jobs s' = jobs Demo.stuck_zero /\
      procs s' = procs Demo.stuck_zero) /\
  (exists s', step Demo.cfg_zero Interrupt Demo.stuck_zero = Some s').
Proof.
  exact (exited_workers_leave_join_waiting (lib := Demo.library)
           Demo.cfg_zero [] Demo.photos
           (Demo.before_zero ++ [Worker 0; Worker 0]) Demo.stuck_zero 3
           eq_refl eq_refl
           ltac:(constructor; [eexists; reflexivity|constructor])
           ltac:(discriminate)).
Defined.

Lemma interrupt_outside_join_is_fatal_witness :
  exists s1,
    step Demo.cfg Interrupt (initial Demo.cfg [] Demo.photos) = Some s1 /\
    coordinator s1 = SRaise KeyboardInterrupt.
Proof.
  destruct (interrupt_outside_join_is_fatal (lib := Demo.library) Demo.cfg
              (initial (lib := Demo.library) Demo.cfg [] Demo.photos) I)
    as (s1 & H1 & H2 & _).
  exists s1. split; assumption.
Defined.

(** The Result of worker 1 in the run with the late feeder; and two
    Results of different workers that reach the queue in the other
    order than they were put. *)
Lemma results_of_a_worker_arrive_in_order_witness :
  (produced_by 1 (history Demo.late_final)
   = arrived_from 1 (history Demo.late_final)
     ++ buffered 1 (feeding Demo.late_final) /\
   buffered 1 (feeding Demo.late_final) = [mkResult 1 0 "/out/b.xpm"]) /\
  (run Demo.cfg Demo.crossed_schedule (initial Demo.cfg [] Demo.two_photos)
   = Some Demo.crossed /\
   produced (history Demo.crossed)
   = [mkResult 0 1 "/out/a.xpm"; mkResult 1 0 "/out/b.xpm"] /\
   arrived (history Demo.crossed)
   = [mkResult 1 0 "/out/b.xpm"; mkResult 0 1 "/out/a.xpm"]).
Proof.
  split.
  - split; [|reflexivity].
    exact (results_of_a_worker_arrive_in_order (lib := Demo.library)
             Demo.cfg [] Demo.two_photos Demo.late_schedule Demo.late_final
             1%nat eq_refl).
  - repeat split.
Defined.

Lemma clean_batch_is_summarized_without_skipped_witness :
  run Demo.cfg Demo.clean_schedule (initial Demo.cfg [] Demo.two_photos)
  = Some Demo.clean_final /\
  summarize (mkSummary 2 1 1 false) 2
  = "copied 1 scaled 1 using 2 processes"%string.
Proof.
  split; [reflexivity|].
  exact (proj2 (clean_batch_is_summarized_without_skipped
                  (lib := Demo.library) Demo.cfg [] Demo.two_photos
                  Demo.clean_schedule Demo.clean_final
                  (mkSummary 2 1 1 false) eq_refl eq_refl eq_refl eq_refl
                  eq_refl eq_refl)).
Defined.

End Runs.
